(** * PolyRatings scraper: validators, collector, de-duplication and JSON store

    A shallow embedding of [scraper/validators.py], [scraper/scraper.py] and
    the helper [extract_rating_from_text] of [scraper/utils.py], together
    with the fragments of the Python runtime they call ([str], [re],
    [float], [round], [jsonschema.validate], [json.dump]/[json.load] and
    text files), followed by the properties of the pipeline. *)

From Stdlib Require Import ZArith NArith List Bool Lia Ascii String.
From Stdlib Require Import Floats.SpecFloat.
From stdpp Require Import base decidable countable list gmap sets.

#[local] Set Warnings "-register-all,-clear-no-such-hyp".
Local Open Scope Z_scope.

(** ** Python [str]: a sequence of Unicode code points *)

Module Str.

Abbreviation char := N.
Abbreviation str := (list N).

(** A literal written in ASCII. *)
Definition lit (s : string) : str :=
  List.map N_of_ascii (list_ascii_of_string s).

Fixpoint eqb (a b : str) : bool :=
  match a, b with
  | [], [] => true
  | x :: a', y :: b' => (x =? y)%N && eqb a' b'
  | _, _ => false
  end.

(** [Py_UNICODE_ISSPACE]: what [str.strip], [str.isspace] and the regular
    expression class [\s] call white space. *)
Definition is_space (c : char) : bool :=
  ((9 <=? c) && (c <=? 13) || (28 <=? c) && (c <=? 32)
   || (c =? 133) || (c =? 160) || (c =? 5760)
   || (8192 <=? c) && (c <=? 8202)
   || (c =? 8232) || (c =? 8233) || (c =? 8239) || (c =? 8287)
   || (c =? 12288))%N.

(** [Py_ISSPACE], the C-locale test the float parser uses on the ASCII
    form of its argument. *)
Definition is_c_space (c : char) : bool :=
  ((9 <=? c) && (c <=? 13) || (c =? 32))%N.

Definition is_ascii_digit (c : char) : bool := ((48 <=? c) && (c <=? 57))%N.

(** First code points of the ten-digit blocks of Unicode category Nd
    (Unicode 15.0, CPython 3.12); the mathematical digits
    U+1D7CE..U+1D7FF are five consecutive blocks. *)
Definition decimal_blocks : list N :=
  [ 48; 1632; 1776; 1984; 2406; 2534; 2662; 2790; 2918; 3046; 3174; 3302;
    3430; 3558; 3664; 3792; 3872; 4160; 4240; 6112; 6160; 6470; 6608;
    6784; 6800; 6992; 7088; 7232; 7248; 42528; 43216; 43264; 43472;
    43504; 43600; 44016; 65296; 66720; 68912; 69734; 69872; 69942;
    70096; 70384; 70736; 70864; 71248; 71360; 71472; 71904; 72016;
    72784; 73040; 73120; 73552; 92768; 92864; 93008;
    120782; 120792; 120802; 120812; 120822;
    123200; 123632; 124144; 125264; 130032 ]%N.

(** [Py_UNICODE_TODECIMAL]: the value of a decimal digit, if it is one. *)
Definition to_decimal (c : char) : option N :=
  match List.find (fun b => (b <=? c) && (c <? b + 10))%N decimal_blocks with
  | Some b => Some (c - b)%N
  | None => None
  end.

Definition is_decimal (c : char) : bool :=
  match to_decimal c with Some _ => true | None => false end.

(** [str.lstrip()], [str.rstrip()], [str.strip()] without argument. *)
Fixpoint lstrip (s : str) : str :=
  match s with
  | c :: s' => if is_space c then lstrip s' else s
  | [] => []
  end.

Definition rstrip (s : str) : str := rev (lstrip (rev s)).

Definition strip (s : str) : str := rstrip (lstrip s).

(** The text after a leading [c], when the text starts with [c]. *)
Definition after (c : char) (s : str) : option str :=
  match s with
  | x :: s' => if (x =? c)%N then Some s' else None
  | [] => None
  end.

(** [s.startswith(p)] *)
Fixpoint startswith (s p : str) {struct p} : bool :=
  match p, s with
  | [], _ => true
  | a :: p', b :: s' => (a =? b)%N && startswith s' p'
  | _ :: _, [] => false
  end.

End Str.
Export Str.

(** ** The fragment of Python's [re] the sources use *)

Module Re.

(** Members of a bracketed class. *)
Inductive cset_item :=
| CChr (c : char)            (* a single character *)
| CRange (lo hi : char)      (* lo-hi *)
| CSpace                     (* \s *)
| CDigit.                    (* \d *)

Inductive regex :=
| RChr (c : char)                               (* a literal character *)
| RSet (negated : bool) (items : list cset_item) (* [...] and [^...] *)
| RCat (r1 r2 : regex)
| RStar (r : regex)                             (* r*  greedy *)
| RPlus (r : regex)                             (* r+  greedy *)
| ROpt (r : regex)                              (* r?  greedy *)
| RBol                                          (* ^ *)
| REol                                          (* $ *)
| REps.

Definition item_matches (c : char) (i : cset_item) : bool :=
  match i with
  | CChr x => (c =? x)%N
  | CRange lo hi => ((lo <=? c) && (c <=? hi))%N
  | CSpace => is_space c
  | CDigit => is_decimal c
  end.

Definition set_matches (negated : bool) (items : list cset_item) (c : char) : bool :=
  xorb negated (existsb (item_matches c) items).

Section Matcher.
Context {A : Type}.

(** A matcher takes the position (index and remaining text) and a
    continuation for what follows; [None] makes the caller backtrack. *)
Definition matcher := nat -> str -> (nat -> str -> option A) -> option A.

(** Greedy repetition: one more round of [m] that consumes something is
    tried before leaving the loop. *)
Fixpoint star (m : matcher) (fuel : nat) : matcher :=
  fun p s k =>
    match fuel with
    | O => k p s
    | S fuel' =>
        match m p s (fun p' s' =>
                       if (length s' <? length s)%nat
                       then star m fuel' p' s' k else None) with
        | Some a => Some a
        | None => k p s
        end
    end.

Fixpoint rmatch (r : regex) : matcher :=
  fun p s k =>
    match r with
    | RChr c =>
        match s with
        | x :: s' => if (x =? c)%N then k (S p) s' else None
        | [] => None
        end
    | RSet neg items =>
        match s with
        | x :: s' => if set_matches neg items x then k (S p) s' else None
        | [] => None
        end
    | RCat r1 r2 => rmatch r1 p s (fun p' s' => rmatch r2 p' s' k)
    | RStar r1 => star (rmatch r1) (S (length s)) p s k
    | RPlus r1 =>
        rmatch r1 p s (fun p' s' => star (rmatch r1) (S (length s')) p' s' k)
    | ROpt r1 =>
        match rmatch r1 p s k with
        | Some a => Some a
        | None => k p s
        end
    | RBol => if (p =? 0)%nat then k p s else None
    | REol =>
        (* the end of the text, or just before a final line feed *)
        match s with
        | [] => k p s
        | [c] => if (c =? 10)%N then k p s else None
        | _ => None
        end
    | REps => k p s
    end.
End Matcher.

(** A match: the index where it ends and the text left after it. *)
Definition span := (nat * str)%type.

(** [re.match(r, s)]: a match starting at index 0. *)
Definition re_match (r : regex) (s : str) : option span :=
  rmatch r 0%nat s (fun p' s' => Some (p', s')).

(** The leftmost match starting at index [p] or later; with [adv] an empty
    match at [p] itself does not count (the previous match was empty and
    ended there). The result is the start index and the span. *)
Fixpoint search_from (r : regex) (adv : bool) (p : nat) (s : str)
  : option (nat * span) :=
  match rmatch r p s (fun p' s' =>
                        if adv && (p' =? p)%nat then None else Some (p', s')) with
  | Some e => Some (p, e)
  | None =>
      match s with
      | [] => None
      | _ :: s' => search_from r false (S p) s'
      end
  end.

(** [re.search(r, s)] *)
Definition re_search (r : regex) (s : str) : option (nat * span) :=
  search_from r false 0%nat s.

(** [re.sub(r, repl, s)] for a replacement without group references:
    the non-overlapping matches, left to right. *)
Fixpoint sub_loop (fuel : nat) (r : regex) (repl : str)
         (adv : bool) (p : nat) (s : str) : str :=
  match fuel with
  | O => s
  | S fuel' =>
      match search_from r adv p s with
      | None => s
      | Some (b, (e, s')) =>
          firstn (b - p) s ++ repl
            ++ sub_loop fuel' r repl (e =? b)%nat e s'
      end
  end.

Definition re_sub (r : regex) (repl : str) (s : str) : str :=
  sub_loop (2 * length s + 2) r repl false 0%nat s.

(** Concatenation of several pieces, and a literal run of ASCII text. *)
Definition RSeq (rs : list regex) : regex := fold_right RCat REps rs.

Definition RLit (s : string) : regex := RSeq (List.map RChr (lit s)).

Definition space_class : regex := RSet false [CSpace].
Definition digit_class : regex := RSet false [CDigit].

End Re.
Export Re.

(** ** Exceptions *)

Module Exc.

Inductive exn :=
| ValueError | TypeError | OverflowError | AttributeError
| ValidationError | JSONDecodeError | OSError.

(** The outcome of a call that may raise. *)
Inductive result (A : Type) :=
| Ok (a : A)
| Raise (e : exn).
Arguments Ok {A} a.
Arguments Raise {A} e.

#[global] Instance result_ret : MRet result := fun A a => Ok a.

#[global] Instance result_bind : MBind result :=
  fun A B f m =>
    match m with
    | Ok a => f a
    | Raise e => Raise e
    end.

(** [try: m except (e1, e2, ...): h] *)
Definition try_except {A} (m : result A) (caught : exn -> bool) (h : result A)
  : result A :=
  match m with
  | Ok a => Ok a
  | Raise e => if caught e then h else Raise e
  end.

Definition of_option {A} (e : exn) (o : option A) : result A :=
  match o with Some a => Ok a | None => Raise e end.

End Exc.
Export Exc.

(** ** Python [float]: IEEE 754 binary64 *)

Module Float.

Definition float := spec_float.

Definition prec : Z := 53.
Definition emax : Z := 1024.

Definition is_finite (x : float) : bool :=
  match x with
  | S754_zero _ | S754_finite _ _ _ => true
  | _ => false
  end.

(** The binary64 value nearest to [n / d] (ties to even) with sign [s],
    for [0 <= n] and [0 < d]: what a correctly rounded conversion from
    decimal (David Gay's [strtod], used by CPython) delivers. *)
Definition round_ratio (s : bool) (n d : Z) : float :=
  if n <=? 0 then S754_zero s else
  let l := Z.log2 n - Z.log2 d in
  (* lg = floor (log2 (n / d)) *)
  let lg := if (if 0 <=? l then d * 2 ^ l <=? n else d <=? n * 2 ^ (- l))
            then l else l - 1 in
  let e := Z.max (lg - 52) (-1074) in
  let num := if 0 <=? e then n else n * 2 ^ (- e) in
  let den := if 0 <=? e then d * 2 ^ e else d in
  let q := num / den in
  let r := num mod den in
  let m := match 2 * r ?= den with
           | Lt => q
           | Eq => if Z.even q then q else q + 1
           | Gt => q + 1
           end in
  let '(m, e) := if m =? 2 ^ 53 then (2 ^ 52, e + 1) else (m, e) in
  if m =? 0 then S754_zero s
  else if 971 <? e then S754_infinity s
  else S754_finite s (Z.to_pos m) e.

(** The value [n * 10 ^ e10], rounded. *)
Definition of_decimal (s : bool) (n e10 : Z) : float :=
  if 0 <=? e10 then round_ratio s (n * 10 ^ e10) 1
  else round_ratio s n (10 ^ (- e10)).

(** The integer a run of digit characters denotes. *)
Definition digits_value (ds : str) : Z :=
  fold_left (fun acc c => 10 * acc + (Z.of_N c - 48)) ds 0.

(** The longest prefix of ASCII digits, and the rest. *)
Fixpoint span_digits (s : str) : str * str :=
  match s with
  | c :: s' =>
      if is_ascii_digit c
      then let '(ds, rest) := span_digits s' in (c :: ds, rest)
      else ([], s)
  | [] => ([], [])
  end.

Definition take_sign (s : str) : bool * str :=
  match after 45 s, after 43 s with
  | Some s', _ => (true, s')     (* - *)
  | None, Some s' => (false, s') (* + *)
  | None, None => (false, s)
  end.

(** An exponent part [e], [E] followed by an optional sign and digits; when
    the digits are missing the exponent is not part of the number. *)
Definition take_exponent (s : str) : Z * str :=
  match s with
  | c :: s1 =>
      if ((c =? 101) || (c =? 69))%N then
        let '(neg, s2) := take_sign s1 in
        match span_digits s2 with
        | ([], _) => (0, s)
        | (ds, rest) =>
            ((if neg then - digits_value ds else digits_value ds), rest)
        end
      else (0, s)
  | [] => (0, [])
  end.

(** [_Py_dg_strtod]: sign, digits with an optional point, optional
    exponent. Returns the value and the unread rest; [None] when no number
    starts here. *)
Definition strtod (s : str) : option (float * str) :=
  let '(neg, s1) := take_sign s in
  let '(ip, s2) := span_digits s1 in
  let '(fp, s3) :=
    match after 46 s2 with
    | Some s2' => span_digits s2'
    | None => ([], s2)
    end in
  match ip, fp with
  | [], [] => None
  | _, _ =>
      let '(ex, s4) := take_exponent s3 in
      Some (of_decimal neg (digits_value (ip ++ fp)) (ex - Z.of_nat (length fp)),
            s4)
  end.

Definition to_lower (c : char) : char :=
  if ((65 <=? c) && (c <=? 90))%N then (c + 32)%N else c.

(** [_Py_parse_inf_or_nan] *)
Definition parse_inf_or_nan (s : str) : option (float * str) :=
  let '(neg, s1) := take_sign s in
  let low := List.map to_lower s1 in
  if startswith low (lit "inf") then
    if startswith (skipn 3 low) (lit "inity")
    then Some (S754_infinity neg, skipn 8 s1)
    else Some (S754_infinity neg, skipn 3 s1)
  else if startswith low (lit "nan") then Some (S754_nan, skipn 3 s1)
  else None.

(** [_PyUnicode_TransformDecimalAndSpaceToASCII]: non-ASCII white space
    becomes a blank, a non-ASCII decimal digit its ASCII digit, and the
    text is cut after the first other non-ASCII character, left as [?]. *)
Fixpoint to_ascii (s : str) : str :=
  match s with
  | [] => []
  | c :: s' =>
      if (c <? 127)%N then c :: to_ascii s'
      else if is_space c then 32%N :: to_ascii s'
      else match to_decimal c with
           | Some d => (48 + d)%N :: to_ascii s'
           | None => [63%N]
           end
  end.

Fixpoint c_lstrip (s : str) : str :=
  match s with
  | c :: s' => if is_c_space c then c_lstrip s' else s
  | [] => []
  end.

Definition c_strip (s : str) : str := rev (c_lstrip (rev (c_lstrip s))).

(** [_Py_string_to_number_with_underscores]: an underscore may only stand
    between two digits; the underscores are then dropped. *)
Fixpoint drop_underscores (prev : char) (s : str) : option str :=
  match s with
  | [] => if (prev =? 95)%N then None else Some []
  | c :: s' =>
      if (c =? 95)%N then
        if is_ascii_digit prev then drop_underscores c s' else None
      else
        if (prev =? 95)%N && negb (is_ascii_digit c) then None
        else match drop_underscores c s' with
             | Some t => Some (c :: t)
             | None => None
             end
  end.

(** [float(s)] for a [str] argument. *)
Definition of_str (s : str) : result float :=
  let t := c_strip (to_ascii s) in
  match drop_underscores 0%N t with
  | None => Raise ValueError
  | Some u =>
      match parse_inf_or_nan u with
      | Some (x, []) => Ok x
      | Some (_, _ :: _) => Raise ValueError
      | None =>
          match strtod u with
          | Some (x, []) => Ok x
          | _ => Raise ValueError
          end
      end
  end.

(** [float(n)] for an [int] argument: the nearest double, or
    [OverflowError]. *)
Definition of_int (n : Z) : result float :=
  match round_ratio (n <? 0) (Z.abs n) 1 with
  | S754_infinity _ => Raise OverflowError
  | x => Ok x
  end.

(** [x <= y] on floats; false when either is a NaN. *)
Definition le (x y : float) : bool := SFleb x y.

(** The integer nearest to [n / d], ties to even ([0 <= n], [0 < d]). *)
Definition div_half_even (n d : Z) : Z :=
  let q := n / d in
  match 2 * (n mod d) ?= d with
  | Lt => q
  | Eq => if Z.even q then q else q + 1
  | Gt => q + 1
  end.

(** [round(x, ndigits)] for a float [x] ([float.__round__] and
    [double_round]): the exact value of [x] is rounded half-even to
    [ndigits] decimals and the decimal is read back as a double. *)
Definition round_ndigits (x : float) (ndigits : Z) : float :=
  match x with
  | S754_finite s m e =>
      if 323 <? ndigits then x
      else if ndigits <? -308 then S754_zero s
      else
        (* |x| * 10^ndigits = n / d *)
        let n := (if 0 <=? e then Z.pos m * 2 ^ e else Z.pos m)
                 * (if 0 <=? ndigits then 10 ^ ndigits else 1) in
        let d := (if 0 <=? e then 1 else 2 ^ (- e))
                 * (if 0 <=? ndigits then 1 else 10 ^ (- ndigits)) in
        of_decimal s (div_half_even n d) (- ndigits)
  | _ => x
  end.

(** Literals of the sources. *)
Definition f0_0 : float := S754_zero false.
Definition f4_0 : float := S754_finite false (2 ^ 52) (-50).

End Float.
Export Float.

(** ** Python values that occur in the records and in JSON documents *)

Module Py.

Inductive pyval :=
| PNone
| PBool (b : bool)
| PInt (n : Z)
| PFloat (x : float)
| PStr (s : str)
| PList (l : list pyval)
| PDict (d : list (str * pyval)).   (* items in insertion order *)

(** [d.get(key)] / [key in d] *)
Fixpoint dict_get (d : list (str * pyval)) (key : str) : option pyval :=
  match d with
  | [] => None
  | (k, v) :: d' => if Str.eqb k key then Some v else dict_get d' key
  end.

(** [d[key] = v]: an existing key keeps its place. *)
Fixpoint dict_set (d : list (str * pyval)) (key : str) (v : pyval)
  : list (str * pyval) :=
  match d with
  | [] => [(key, v)]
  | (k, w) :: d' =>
      if Str.eqb k key then (k, v) :: d' else (k, w) :: dict_set d' key v
  end.

(** [float(v)] *)
Definition float_of (v : pyval) : result float :=
  match v with
  | PFloat x => Ok x
  | PInt n => Float.of_int n
  | PBool b => Float.of_int (if b then 1 else 0)
  | PStr s => Float.of_str s
  | PNone | PList _ | PDict _ => Raise TypeError
  end.

(** The exact comparison of a finite double [±m·2^e] with an integer. *)
Definition float_cmp_int (x : float) (n : Z) : option comparison :=
  match x with
  | S754_nan => None
  | S754_infinity s => Some (if s then Lt else Gt)
  | S754_zero _ => Some (0 ?= n)
  | S754_finite s m e =>
      let v := if s then Z.neg m else Z.pos m in
      Some (if 0 <=? e then v * 2 ^ e ?= n else v ?= n * 2 ^ (- e))
  end.

(** [a < b] for numbers ([int] or [float]); [None] for other values. *)
Definition num_lt (a b : pyval) : option bool :=
  match a, b with
  | PFloat x, PFloat y => Some (SFltb x y)
  | PInt m, PInt n => Some (m <? n)
  | PFloat x, PInt n =>
      Some (match float_cmp_int x n with Some Lt => true | _ => false end)
  | PInt n, PFloat x =>
      Some (match float_cmp_int x n with Some Gt => true | _ => false end)
  | _, _ => None
  end.

End Py.
Export Py.

(** ** [jsonschema.validate] for the keywords the schemas use *)

Module JsonSchema.

Inductive jtype := TObject | TArray | TString | TNumber.

Inductive keyword :=
| KType (t : jtype)
| KProperties (ps : list (str * schema))
| KRequired (names : list str)
| KAdditionalProperties (allowed : bool)
| KMinLength (n : nat)
| KMaxLength (n : nat)
| KPattern (r : regex)
| KMinimum (x : pyval)
| KMaximum (x : pyval)
| KFormat (f : str)
| KItems (s : schema)
| KMinItems (n : nat)
with schema := Schema (ks : list keyword).

Definition keywords (s : schema) : list keyword :=
  match s with Schema ks => ks end.

Definition is_type (t : jtype) (v : pyval) : bool :=
  match t, v with
  | TObject, PDict _ => true
  | TArray, PList _ => true
  | TString, PStr _ => true
  | TNumber, (PInt _ | PFloat _) => true   (* a bool is not a number *)
  | _, _ => false
  end.

(** The property names declared by a [properties] keyword of the schema. *)
Definition declared (ks : list keyword) : list str :=
  flat_map (fun k => match k with
                     | KProperties ps => List.map fst ps
                     | _ => []
                     end) ks.

(** A keyword constrains only instances of the type it is about and lets
    every other instance pass. *)
Fixpoint valid (s : schema) (v : pyval) {struct s} : bool :=
  match s with
  | Schema ks =>
      (fix all_keywords (l : list keyword) : bool :=
         match l with
         | [] => true
         | k :: l' =>
             (match k with
              | KType t => is_type t v
              | KProperties ps =>
                  match v with
                  | PDict d =>
                      (fix props (ps : list (str * schema)) : bool :=
                         match ps with
                         | [] => true
                         | (name, sub) :: ps' =>
                             (match dict_get d name with
                              | Some w => valid sub w
                              | None => true
                              end) && props ps'
                         end) ps
                  | _ => true
                  end
              | KRequired names =>
                  match v with
                  | PDict d =>
                      forallb (fun n => match dict_get d n with
                                        | Some _ => true
                                        | None => false
                                        end) names
                  | _ => true
                  end
              | KAdditionalProperties allowed =>
                  match v with
                  | PDict d =>
                      allowed
                      || forallb (fun kv => existsb (Str.eqb (fst kv)) (declared ks)) d
                  | _ => true
                  end
              | KMinLength n =>
                  match v with
                  | PStr t => (n <=? length t)%nat
                  | _ => true
                  end
              | KMaxLength n =>
                  match v with
                  | PStr t => (length t <=? n)%nat
                  | _ => true
                  end
              | KPattern r =>
                  match v with
                  | PStr t => match re_search r t with
                              | Some _ => true
                              | None => false
                              end
                  | _ => true
                  end
              | KMinimum x =>
                  (* fails when [instance < minimum] *)
                  match num_lt v x with
                  | Some b => negb b
                  | None => true
                  end
              | KMaximum x =>
                  (* fails when [instance > maximum] *)
                  match num_lt x v with
                  | Some b => negb b
                  | None => true
                  end
              | KFormat _ => true   (* no format checker is passed *)
              | KItems sub =>
                  match v with
                  | PList l => forallb (valid sub) l
                  | _ => true
                  end
              | KMinItems n =>
                  match v with
                  | PList l => (n <=? length l)%nat
                  | _ => true
                  end
              end) && all_keywords l'
         end) ks
  end.

(** [validate(instance=v, schema=s)] *)
Definition validate (v : pyval) (s : schema) : result unit :=
  if valid s v then Ok tt else Raise ValidationError.

End JsonSchema.
Export JsonSchema.

(** ** [config.py] *)

Module ScraperConfig.
Definition BASE_URL : str := lit "https://polyratings.dev".
Definition MIN_RATING : float := f0_0.
Definition MAX_RATING : float := f4_0.
Definition MIN_NAME_LENGTH : nat := 2.
Definition MAX_NAME_LENGTH : nat := 100.
End ScraperConfig.

(** ** [validators.py] *)

Module Validators.

(** [A-Za-z\s,\.'-], the members of the name class *)
Definition name_items : list cset_item :=
  [CRange 65 90; CRange 97 122; CSpace; CChr 44; CChr 46; CChr 39; CChr 45]%N.

(** [a-f0-9-], the members of the token class *)
Definition token_items : list cset_item :=
  [CRange 97 102; CRange 48 57; CChr 45]%N.

(** r"^[A-Za-z\s,\.'-]+$" *)
Definition name_pattern : regex :=
  RSeq [RBol; RPlus (RSet false name_items); REol].

(** r"^https://polyratings\.dev/professor/[a-f0-9-]+$" *)
Definition link_pattern : regex :=
  RSeq [RBol; RLit "https://polyratings.dev/professor/";
        RPlus (RSet false token_items); REol].

Definition PROFESSOR_SCHEMA : schema :=
  Schema
    [ KType TObject;
      KProperties
        [ (lit "name",
           Schema [ KType TString;
                    KMinLength ScraperConfig.MIN_NAME_LENGTH;
                    KMaxLength ScraperConfig.MAX_NAME_LENGTH;
                    KPattern name_pattern ]);
          (lit "rating",
           Schema [ KType TNumber;
                    KMinimum (PFloat ScraperConfig.MIN_RATING);
                    KMaximum (PFloat ScraperConfig.MAX_RATING) ]);
          (lit "link",
           Schema [ KType TString;
                    KFormat (lit "uri");
                    KPattern link_pattern ]) ];
      KRequired [lit "name"; lit "rating"; lit "link"];
      KAdditionalProperties false ].

Definition PROFESSORS_LIST_SCHEMA : schema :=
  Schema [ KType TArray; KItems PROFESSOR_SCHEMA; KMinItems 1 ].

Definition is_exn (e0 e : exn) : bool :=
  match e0, e with
  | ValueError, ValueError | TypeError, TypeError
  | OverflowError, OverflowError | AttributeError, AttributeError
  | ValidationError, ValidationError | JSONDecodeError, JSONDecodeError
  | OSError, OSError => true
  | _, _ => false
  end.

(** The handler of [validate_professor_data] formats its message with
    [professor.get('name', 'Unknown')], which only a dict has. *)
Definition validate_professor_data (professor : pyval) : result bool :=
  try_except (_ ← validate professor PROFESSOR_SCHEMA; Ok true)
    (is_exn ValidationError)
    (match professor with
     | PDict _ => Ok false
     | _ => Raise AttributeError
     end).

Definition validate_professors_list (professors : pyval) : result bool :=
  try_except (_ ← validate professors PROFESSORS_LIST_SCHEMA; Ok true)
    (is_exn ValidationError)
    (Ok false).

(** r'\s+' *)
Definition spaces_pattern : regex := RPlus space_class.

(** r'[^A-Za-z\s,\.\'-]' *)
Definition not_name_char_pattern : regex := RSet true name_items.

(** The name comes from the page as a text or as [None]. *)
Definition clean_professor_name (name : option str) : str :=
  match name with
  | None | Some [] => []
  | Some name =>
      let name := re_sub spaces_pattern (lit " ") (strip name) in
      let name := re_sub not_name_char_pattern [] name in
      name
  end.

Definition validate_rating (rating : pyval) : result (option float) :=
  try_except
    (rating_float ← float_of rating;
     if Float.le ScraperConfig.MIN_RATING rating_float
        && Float.le rating_float ScraperConfig.MAX_RATING
     then Ok (Some (round_ndigits rating_float 2))
     else Ok None)
    (fun e => is_exn ValueError e || is_exn TypeError e)
    (Ok None).

Definition validate_professor_link (link : str) : option str :=
  match link with
  | [] => None
  | _ =>
      match re_match link_pattern link with
      | Some _ => Some link
      | None => None
      end
  end.

Definition professor_entry (name : str) (rating : float) (link : str) : pyval :=
  PDict [ (lit "name", PStr name);
          (lit "rating", PFloat rating);
          (lit "link", PStr link) ].

Definition create_professor_entry (name : option str) (rating : pyval) (link : str)
  : result (option pyval) :=
  let clean_name := clean_professor_name name in
  match clean_name with
  | [] => Ok None
  | _ =>
      valid_rating ← validate_rating rating;
      match valid_rating with
      | None => Ok None
      | Some valid_rating =>
          match validate_professor_link link with
          | None => Ok None
          | Some valid_link =>
              let professor_entry := professor_entry clean_name valid_rating valid_link in
              ok ← validate_professor_data professor_entry;
              if (ok : bool) then Ok (Some professor_entry) else Ok None
          end
      end
  end.

End Validators.
Export Validators.

(** ** [scraper.py]: extraction, collection and de-duplication *)

Module Scraper.

(** A raw professor card: the [(name, rating, link)] tuple. *)
Definition professor : Type := option str * option str * str.

Definition prof_link (p : professor) : str := snd p.

(** What BeautifulSoup reports for one [div.absolute > a] element: its
    [href] attribute, the stripped text of its [h3.text-3xl] and of the
    last [div] of its rating container, each if present. *)
Record a_tag := {
  href : option str;
  h3_text : option str;
  rating_div_text : option str
}.

(** The rendering engine as the collector uses it. Every call may find the
    page changed: content is loaded lazily while the program runs. *)
Record WebDriver (W : Type) := {
  (* BeautifulSoup(driver.page_source, "lxml").select('div.absolute > a') *)
  page_cards : W -> list a_tag * W;
  (* driver.execute_script("return document.body.scrollHeight") *)
  scroll_height : W -> Z * W;
  (* driver.execute_script(f"window.scrollTo(0, {y});") *)
  scroll_to : Z -> W -> W;
  (* driver.execute_script("window.scrollTo(0, document.body.scrollHeight);") *)
  scroll_to_bottom : W -> W;
  (* time.sleep(seconds) *)
  sleep : float -> W -> W
}.
Arguments page_cards {W}.
Arguments scroll_height {W}.
Arguments scroll_to {W}.
Arguments scroll_to_bottom {W}.
Arguments sleep {W}.

Definition href_prefix : str := lit "/professor/".

Definition extract_card (a : a_tag) : option professor :=
  match href a with
  | None | Some [] => None
  | Some h =>
      if startswith h href_prefix
      then Some (h3_text a, rating_div_text a, ScraperConfig.BASE_URL ++ h)
      else None
  end.

Definition extract_professors_from_dom {W} (driver : WebDriver W) (w : W)
  : list professor * W :=
  let '(cards, w) := page_cards driver w in
  (omap extract_card cards, w).

(** The local variables of [fine_grained_scroll_and_collect]; [observed] is
    a ghost variable that records what each extraction returned. *)
Record collector := {
  all_professors : gset professor;
  last_count : Z;
  no_new_count : Z;
  scroll_position : Z;
  total_height : Z;
  observed : list (list professor)
}.

(** [for prof in current_professors: all_professors.add(prof)] *)
Definition add_all (current : list professor) (acc : gset professor)
  : gset professor :=
  fold_left (fun acc prof => {[prof]} ∪ acc) current acc.

Definition set_len (s : gset professor) : Z := Z.of_nat (size s).

Section Collect.
Context {W : Type} (driver : WebDriver W).
Variables (scroll_pause : float) (increment max_no_new : Z).

(** One round of the [while] loop, entered with
    [scroll_position < total_height]; [inl] when the round ends in
    [break]. *)
Definition loop_body (c : collector) (w : W) : (collector + collector) * W :=
  let w := scroll_to driver (scroll_position c) w in
  let w := sleep driver scroll_pause w in
  let '(current_professors, w) := extract_professors_from_dom driver w in
  let all := add_all current_professors (all_professors c) in
  let '(no_new, last) :=
    if set_len all =? last_count c
    then (no_new_count c + 1, last_count c)
    else (0, set_len all) in
  let c1 := {| all_professors := all; last_count := last;
               no_new_count := no_new;
               scroll_position := scroll_position c;
               total_height := total_height c;
               observed := observed c ++ [current_professors] |} in
  if max_no_new <=? no_new then (inl c1, w)
  else
    let '(h, w) := scroll_height driver w in
    (inr {| all_professors := all; last_count := last;
            no_new_count := no_new;
            scroll_position := scroll_position c + increment;
            total_height := h;
            observed := observed c ++ [current_professors] |}, w).

(** The [while scroll_position < total_height] loop, for at most [fuel]
    rounds. *)
Fixpoint scroll_loop (fuel : nat) (c : collector) (w : W)
  : option (collector * W) :=
  if scroll_position c <? total_height c then
    match fuel with
    | O => None
    | S fuel' =>
        match loop_body c w with
        | (inl c', w') => Some (c', w')
        | (inr c', w') => scroll_loop fuel' c' w'
        end
    end
  else Some (c, w).

Definition init (w : W) : collector * W :=
  let '(h, w) := scroll_height driver w in
  ({| all_professors := ∅; last_count := 0; no_new_count := 0;
      scroll_position := 0; total_height := h; observed := [] |}, w).

(** The final pass at the bottom of the page. *)
Definition final_pass (c : collector) (w : W) : collector * W :=
  let w := scroll_to_bottom driver w in
  let w := sleep driver (SFmul prec emax scroll_pause (S754_finite false (2 ^ 52) (-51))) w in
  let '(current_professors, w) := extract_professors_from_dom driver w in
  ({| all_professors := add_all current_professors (all_professors c);
      last_count := last_count c; no_new_count := no_new_count c;
      scroll_position := scroll_position c;
      total_height := total_height c;
      observed := observed c ++ [current_professors] |}, w).

(** The whole function: the final local state (whose [all_professors] is
    the accumulator and whose [observed] is the log of extractions), the
    returned [list(all_professors)] and the page afterwards. *)
Definition fine_grained_scroll_and_collect (fuel : nat) (w : W)
  : option (collector * list professor * W) :=
  let '(c, w) := init w in
  match scroll_loop fuel c w with
  | None => None
  | Some (c, w) =>
      let '(c, w) := final_pass c w in
      Some (c, elements (all_professors c), w)
  end.
End Collect.

(** [deduplicate_professors]: the loop over the input with its two local
    variables. *)
Fixpoint dedup_loop (professors : list professor)
         (seen : gset str) (unique : list professor) : list professor :=
  match professors with
  | [] => unique
  | (name, rating, link) :: rest =>
      if bool_decide (link ∈ seen)
      then dedup_loop rest seen unique
      else dedup_loop rest ({[link]} ∪ seen) (unique ++ [(name, rating, link)])
  end.

Definition deduplicate_professors (professors : list professor) : list professor :=
  dedup_loop professors ∅ [].

(** The first card of [l] that carries the link [k]. *)
Definition first_with_link (k : str) (l : list professor) : option professor :=
  List.find (fun q => bool_decide (prof_link q = k)) l.

(** The accumulator holds exactly the cards the extractions returned. *)
Definition holds_observed (c : collector) : Prop :=
  forall p, p ∈ all_professors c <-> exists obs, obs ∈ observed c /\ p ∈ obs.

End Scraper.
Export Scraper.

(** ** [repr] of numbers *)

Module Repr.

Definition digit_char (d : Z) : char := Z.to_N (48 + d).

(** The decimal digits of [n >= 0], most significant first. *)
Fixpoint digits_fuel (fuel : nat) (n : Z) (acc : str) : str :=
  match fuel with
  | O => acc
  | S fuel' =>
      if n <? 10 then digit_char n :: acc
      else digits_fuel fuel' (n / 10) (digit_char (n mod 10) :: acc)
  end.

Definition nat_repr (n : Z) : str :=
  digits_fuel (S (Z.to_nat (Z.log2 n))) n [].

(** [int.__repr__] *)
Definition int_repr (n : Z) : str :=
  if n <? 0 then 45%N :: nat_repr (- n) else nat_repr n.

Definition float_eqb (x y : float) : bool :=
  match x, y with
  | S754_zero a, S754_zero b => Bool.eqb a b
  | S754_infinity a, S754_infinity b => Bool.eqb a b
  | S754_nan, S754_nan => true
  | S754_finite a m e, S754_finite b m' e' =>
      Bool.eqb a b && (m =? m')%positive && (e =? e')
  | _, _ => false
  end.

(** [n / d < 10 ^ k] *)
Definition below_pow10 (n d k : Z) : bool :=
  if 0 <=? k then n <? d * 10 ^ k else n * 10 ^ (- k) <? d.

(** The least [k' >= k] with [n / d < 10 ^ k']. *)
Fixpoint find_decpt (fuel : nat) (n d k : Z) : Z :=
  match fuel with
  | O => k
  | S fuel' => if below_pow10 n d k then k else find_decpt fuel' n d (k + 1)
  end.

(** The position of the decimal point of [n / d > 0]:
    [10 ^ (decpt - 1) <= n / d < 10 ^ decpt]. The search starts from a
    lower estimate obtained from the binary logarithm. *)
Definition decpt (n d : Z) : Z :=
  find_decpt 8 n d ((Z.log2 n - Z.log2 d - 1) * 30103 / 100000 - 1).

(** Trailing zeros are no digits of the shortest string. *)
Fixpoint strip_zeros (fuel : nat) (c e10 : Z) : Z * Z :=
  match fuel with
  | O => (c, e10)
  | S fuel' =>
      if (c mod 10 =? 0) && (0 <? c) then strip_zeros fuel' (c / 10) (e10 + 1)
      else (c, e10)
  end.

Definition two_digits (n : Z) : str :=
  if n <? 10 then 48%N :: nat_repr n else nat_repr n.

(** [format_float_short] in its ['r'] mode: the digits [ds] with the point
    after the first [pt] of them; exponent notation when [pt <= -4] or
    [pt > 16], and [.0] added to an integer. *)
Definition format_digits (ds : str) (pt : Z) : str :=
  if (pt <=? -4) || (16 <? pt) then
    let ex := pt - 1 in
    firstn 1 ds
      ++ (match skipn 1 ds with [] => [] | fr => 46%N :: fr end)
      ++ [101%N]
      ++ (if ex <? 0 then 45%N :: two_digits (- ex) else 43%N :: two_digits ex)
  else if pt <=? 0 then
    lit "0." ++ repeat 48%N (Z.to_nat (- pt)) ++ ds
  else if Z.of_nat (length ds) <=? pt then
    ds ++ repeat 48%N (Z.to_nat (pt - Z.of_nat (length ds))) ++ lit ".0"
  else
    firstn (Z.to_nat pt) ds ++ 46%N :: skipn (Z.to_nat pt) ds.

(** The text for the decimal [c * 10 ^ e10]. *)
Definition decimal_text (s : bool) (c e10 : Z) : str :=
  let '(c, e10) := strip_zeros 20 c e10 in
  let ds := nat_repr c in
  (if s then [45%N] else []) ++ format_digits ds (e10 + Z.of_nat (length ds)).

Definition reads_back (x : float) (t : str) : bool :=
  match Float.of_str t with
  | Ok y => float_eqb x y
  | Raise _ => false
  end.

(** The decimals with [nd] significant digits on either side of
    [n / d], nearest first (ties to the even one), that read back as [x]. *)
Definition try_digits (x : float) (s : bool) (n d pt : Z) (nd : Z) : option str :=
  let e10 := pt - nd in
  let a := if 0 <=? e10 then n else n * 10 ^ (- e10) in
  let b := if 0 <=? e10 then d * 10 ^ e10 else d in
  let lo := a / b in
  let r := a mod b in
  let t_lo := decimal_text s lo e10 in
  let t_hi := decimal_text s (lo + 1) e10 in
  let lo_first :=
    match 2 * r ?= b with
    | Lt => true
    | Eq => Z.even lo
    | Gt => false
    end in
  let '(t1, t2) := if lo_first then (t_lo, t_hi) else (t_hi, t_lo) in
  if (0 <? (if lo_first then lo else lo + 1)) && reads_back x t1 then Some t1
  else if (r =? 0) then None
  else if (0 <? (if lo_first then lo + 1 else lo)) && reads_back x t2 then Some t2
  else None.

Fixpoint shortest (fuel : nat) (x : float) (s : bool) (n d pt nd : Z) : option str :=
  match fuel with
  | O => None
  | S fuel' =>
      match try_digits x s n d pt nd with
      | Some t => Some t
      | None => shortest fuel' x s n d pt (nd + 1)
      end
  end.

(** The exact value of [±m·2^e] written as an integer and a power of ten. *)
Definition exact_text (s : bool) (m : positive) (e : Z) : str :=
  (if s then [45%N] else [])
    ++ (if 0 <=? e then nat_repr (Z.pos m * 2 ^ e) ++ lit "e+00"
        else nat_repr (Z.pos m * 5 ^ (- e)) ++ lit "e-" ++ nat_repr (- e)).

(** [float.__repr__]: the shortest digit string that reads back as [x]
    (David Gay's mode 0), laid out by [format_float_short]. Seventeen
    significant digits always identify a double, so the search succeeds;
    the exact decimal expansion closes the definition. *)
Definition float_repr (x : float) : str :=
  match x with
  | S754_nan => lit "nan"
  | S754_infinity s => if s then lit "-inf" else lit "inf"
  | S754_zero s => if s then lit "-0.0" else lit "0.0"
  | S754_finite s m e =>
      let n := if 0 <=? e then Z.pos m * 2 ^ e else Z.pos m in
      let d := if 0 <=? e then 1 else 2 ^ (- e) in
      match shortest 17 x s n d (decpt n d) 1 with
      | Some t => t
      | None => exact_text s m e
      end
  end.

End Repr.
Export Repr.

(** ** [json]: the encoder of [json.dump(obj, f, indent=2, ensure_ascii=False)]
       and the decoder of [json.load] *)

Module Json.

Definition hex_digit (d : N) : char :=
  (if d <? 10 then 48 + d else 87 + d)%N.

(** [ESCAPE_DCT]: the quote, the backslash and the control characters. *)
Definition escape_char (c : char) : str :=
  if (c =? 34)%N then lit "\" ++ [34%N]
  else if (c =? 92)%N then lit "\\"
  else if (c =? 10)%N then lit "\n"
  else if (c =? 13)%N then lit "\r"
  else if (c =? 9)%N then lit "\t"
  else if (c =? 12)%N then lit "\f"
  else if (c =? 8)%N then lit "\b"
  else if (c <? 32)%N then lit "\u00" ++ [hex_digit (c / 16); hex_digit (c mod 16)]
  else [c].

(** [encode_basestring] *)
Definition encode_str (s : str) : str :=
  34%N :: flat_map escape_char s ++ [34%N].

(** [floatstr] (with [allow_nan]) *)
Definition floatstr (x : float) : str :=
  match x with
  | S754_nan => lit "NaN"
  | S754_infinity false => lit "Infinity"
  | S754_infinity true => lit "-Infinity"
  | _ => float_repr x
  end.

Definition newline_indent (level : nat) : str :=
  10%N :: repeat 32%N (2 * level).

(** [sep.join(parts)] *)
Fixpoint join (sep : str) (parts : list str) : str :=
  match parts with
  | [] => []
  | [p] => p
  | p :: rest => p ++ sep ++ join sep rest
  end.

(** The text [_iterencode] produces for a value at an indent level. *)
Fixpoint encode (level : nat) (v : pyval) {struct v} : str :=
  match v with
  | PNone => lit "null"
  | PBool true => lit "true"
  | PBool false => lit "false"
  | PInt n => int_repr n
  | PFloat x => floatstr x
  | PStr s => encode_str s
  | PList [] => lit "[]"
  | PList l =>
      lit "[" ++ newline_indent (S level)
        ++ join (44%N :: newline_indent (S level)) (List.map (encode (S level)) l)
        ++ newline_indent level ++ lit "]"
  | PDict [] => lit "{}"
  | PDict d =>
      lit "{" ++ newline_indent (S level)
        ++ join (44%N :: newline_indent (S level))
             (List.map (fun kv => encode_str (fst kv) ++ lit ": "
                                    ++ encode (S level) (snd kv)) d)
        ++ newline_indent level ++ lit "}"
  end.

Definition dumps (v : pyval) : str := encode 0 v.

(** *** The decoder *)

(** [WHITESPACE]: blank, tab, line feed, carriage return *)
Definition is_json_space (c : char) : bool :=
  ((c =? 32) || (c =? 9) || (c =? 10) || (c =? 13))%N.

Fixpoint skip_ws (s : str) : str :=
  match s with
  | c :: s' => if is_json_space c then skip_ws s' else s
  | [] => []
  end.

Definition hex_value (c : char) : option N :=
  (if (48 <=? c) && (c <=? 57) then Some (c - 48)
   else if (97 <=? c) && (c <=? 102) then Some (c - 87)
   else if (65 <=? c) && (c <=? 70) then Some (c - 55)
   else None)%N.

(** The four hex digits after [\u]. *)
Definition decode_uXXXX (s : str) : option (N * str) :=
  match s with
  | a :: b :: c :: d :: rest =>
      match hex_value a, hex_value b, hex_value c, hex_value d with
      | Some a, Some b, Some c, Some d =>
          Some (((a * 16 + b) * 16 + c) * 16 + d, rest)%N
      | _, _, _, _ => None
      end
  | _ => None
  end.

(** [scanstring] in strict mode, after the opening quote. *)
Fixpoint scanstring (fuel : nat) (s : str) : option (str * str) :=
  match fuel with
  | O => None
  | S fuel' =>
      match s with
      | [] => None
      | c :: s1 =>
          if (c =? 34)%N then Some ([], s1)
          else if (c =? 92)%N then
            match s1 with
            | [] => None
            | esc :: s2 =>
                let plain (x : N) :=
                  match scanstring fuel' s2 with
                  | Some (t, rest) => Some (x :: t, rest)
                  | None => None
                  end in
                if (esc =? 117)%N then
                  match decode_uXXXX s2 with
                  | None => None
                  | Some (uni, s3) =>
                      let '(uni, s4) :=
                        if ((55296 <=? uni) && (uni <=? 56319))%N then
                          match (s3a ← after 92 s3; s3b ← after 117 s3a; decode_uXXXX s3b) with
                          | Some (uni2, s4) =>
                              if ((56320 <=? uni2) && (uni2 <=? 57343))%N
                              then (65536 + ((uni - 55296) * 1024 + (uni2 - 56320)), s4)%N
                              else (uni, s3)
                          | None => (uni, s3)
                          end
                        else (uni, s3) in
                      match scanstring fuel' s4 with
                      | Some (t, rest) => Some (uni :: t, rest)
                      | None => None
                      end
                  end
                else if (esc =? 34)%N then plain 34%N
                else if (esc =? 92)%N then plain 92%N
                else if (esc =? 47)%N then plain 47%N
                else if (esc =? 98)%N then plain 8%N
                else if (esc =? 102)%N then plain 12%N
                else if (esc =? 110)%N then plain 10%N
                else if (esc =? 114)%N then plain 13%N
                else if (esc =? 116)%N then plain 9%N
                else None
            end
          else if (c <? 32)%N then None
          else
            match scanstring fuel' s1 with
            | Some (t, rest) => Some (c :: t, rest)
            | None => None
            end
      end
  end.

(** [NUMBER_RE]: an optional minus sign and either 0 or a non-zero digit
    followed by digits; then optionally a point with at least one digit;
    then optionally e or E, an optional sign and at least one digit. The
    lexeme is split into integer part, fraction and exponent. *)
Definition match_number (s : str) : option (str * str * str * str) :=
  let '(sign, s1) := match after 45 s with
                     | Some s' => ([45%N], s')
                     | None => ([], s)
                     end in
  match s1 with
  | [] => None
  | c :: s2 =>
      if is_ascii_digit c then
        let '(ds, s3) := if (c =? 48)%N then ([], s2) else span_digits s2 in
        let integer := sign ++ c :: ds in
        let '(frac, s4) :=
          match after 46 s3 with
          | Some s3' =>
              match span_digits s3' with
              | ([], _) => ([], s3)
              | (fs, rest) => (46%N :: fs, rest)
              end
          | None => ([], s3)
          end in
        let '(exp, s5) :=
          match s4 with
          | e :: s4' =>
              if ((e =? 101) || (e =? 69))%N then
                let '(sg, s4'') := match after 45 s4', after 43 s4' with
                                   | Some t, _ => ([45%N], t)
                                   | None, Some t => ([43%N], t)
                                   | None, None => ([], s4')
                                   end in
                match span_digits s4'' with
                | ([], _) => ([], s4)
                | (es, rest) => (e :: sg ++ es, rest)
                end
              else ([], s4)
          | [] => ([], s4)
          end in
        Some (integer, frac, exp, s5)
      else None
  end.

(** [int(lexeme)] for a lexeme of [NUMBER_RE] *)
Definition int_of_lexeme (t : str) : Z :=
  match after 45 t with
  | Some ds => - digits_value ds
  | None => digits_value t
  end.

Definition scan_number (s : str) : option (pyval * str) :=
  match match_number s with
  | None => None
  | Some (integer, frac, exp, rest) =>
      match frac, exp with
      | [], [] => Some (PInt (int_of_lexeme integer), rest)
      | _, _ =>
          match Float.of_str (integer ++ frac ++ exp) with
          | Ok x => Some (PFloat x, rest)
          | Raise _ => None
          end
      end
  end.

Definition expect (word : string) (s : str) (v : pyval) : option (pyval * str) :=
  if startswith s (lit word)
  then Some (v, skipn (String.length word) s) else None.

(** [JSONArray] after the opening bracket and white space, for a scanner
    [scan] of the items; [n] bounds the number of items. *)
Fixpoint scan_array (scan : str -> option (pyval * str)) (n : nat) (s : str)
         (acc : list pyval) : option (pyval * str) :=
  match n with
  | O => None
  | S n' =>
      match scan s with
      | None => None
      | Some (v, s1) =>
          match after 93 (skip_ws s1), after 44 (skip_ws s1) with
          | Some s2, _ => Some (PList (acc ++ [v]), s2)
          | None, Some s2 => scan_array scan n' (skip_ws s2) (acc ++ [v])
          | None, None => None
          end
      end
  end.

(** [JSONObject] just after the opening quote of a key; a key that comes
    again replaces the value it had. *)
Fixpoint scan_object (scan : str -> option (pyval * str)) (n : nat) (s : str)
         (acc : list (str * pyval)) : option (pyval * str) :=
  match n with
  | O => None
  | S n' =>
      match scanstring (S (length s)) s with
      | None => None
      | Some (key, s1) =>
          match after 58 (skip_ws s1) with
          | Some s2 =>
              match scan (skip_ws s2) with
              | None => None
              | Some (v, s3) =>
                  match after 125 (skip_ws s3), after 44 (skip_ws s3) with
                  | Some s4, _ => Some (PDict (dict_set acc key v), s4)
                  | None, Some s4 =>
                      match after 34 (skip_ws s4) with
                      | Some s5 => scan_object scan n' s5 (dict_set acc key v)
                      | None => None
                      end
                  | None, None => None
                  end
              end
          | None => None
          end
      end
  end.

(** [scan_once]; [fuel] bounds the nesting, the length of the text
    suffices. *)
Fixpoint scan_once (fuel : nat) (s : str) : option (pyval * str) :=
  match fuel with
  | O => None
  | S fuel' =>
      match s with
      | [] => None
      | c :: s' =>
          if (c =? 34)%N then
            match scanstring (S (length s')) s' with
            | Some (t, rest) => Some (PStr t, rest)
            | None => None
            end
          else if (c =? 123)%N then
            match after 125 (skip_ws s'), after 34 (skip_ws s') with
            | Some rest, _ => Some (PDict [], rest)
            | None, Some s1 => scan_object (scan_once fuel') (length s) s1 []
            | None, None => None
            end
          else if (c =? 91)%N then
            match after 93 (skip_ws s') with
            | Some rest => Some (PList [], rest)
            | None => scan_array (scan_once fuel') (length s) (skip_ws s') []
            end
          else if (c =? 110)%N then expect "null" s PNone
          else if (c =? 116)%N then expect "true" s (PBool true)
          else if (c =? 102)%N then expect "false" s (PBool false)
          else
            match scan_number s with
            | Some r => Some r
            | None =>
                if (c =? 78)%N then expect "NaN" s (PFloat S754_nan)
                else if (c =? 73)%N then expect "Infinity" s (PFloat (S754_infinity false))
                else if (c =? 45)%N then expect "-Infinity" s (PFloat (S754_infinity true))
                else None
            end
      end
  end.

(** [json.loads]: one value between optional white space, nothing else. *)
Definition loads (s : str) : result pyval :=
  match after 65279 s with
  | Some _ => Raise JSONDecodeError      (* a byte order mark *)
  | None =>
      match scan_once (S (length s)) (skip_ws s) with
      | None => Raise JSONDecodeError
      | Some (v, rest) =>
          match skip_ws rest with
          | [] => Ok v
          | _ :: _ => Raise JSONDecodeError
          end
      end
  end.

End Json.
Export Json.

(** ** Text files *)

Module Files.

(** The files that exist, by path, with their decoded contents. *)
Abbreviation filesystem := (gmap str str).

(** What the operating system does to one [open]-and-write: the open may
    be refused, the write may stop after some characters reached the file,
    or all goes well. *)
Inductive write_fault :=
| OpenFails
| WriteFailsAfter (n : nat)
| NoFault.

Definition is_surrogate (c : char) : bool := ((55296 <=? c) && (c <=? 57343))%N.

Fixpoint before_surrogate (text : str) : str :=
  match text with
  | c :: text' => if is_surrogate c then [] else c :: before_surrogate text'
  | [] => []
  end.

(** [with open(path, 'w', encoding='utf-8') as f: f.write(text)]: the file
    is truncated as soon as it is open; a failing write leaves the part
    already written. A lone surrogate cannot be encoded. *)
Definition write_file (fault : write_fault) (path : str) (text : str)
           (fs : filesystem) : result unit * filesystem :=
  match fault with
  | OpenFails => (Raise OSError, fs)
  | WriteFailsAfter n => (Raise OSError, <[path := firstn n text]> fs)
  | NoFault =>
      if forallb (fun c => negb (is_surrogate c)) text
      then (Ok tt, <[path := text]> fs)
      else (Raise ValueError,
            <[path := before_surrogate text]> fs)
  end.

(** [with open(path, 'r', encoding='utf-8') as f: f.read()] *)
Definition read_file (readable : bool) (path : str) (fs : filesystem)
  : result str :=
  if readable then of_option OSError (fs !! path) else Raise OSError.

End Files.
Export Files.

(** ** [validators.py]: the record store *)

Module Store.

(** Every exception is caught: the function returns a bool. *)
Definition save_professors_json (fault : write_fault)
           (professors : pyval) (output_path : str) (fs : filesystem)
  : bool * filesystem :=
  match validate_professors_list professors with
  | Raise _ => (false, fs)
  | Ok false => (false, fs)
  | Ok true =>
      match write_file fault output_path (dumps professors) fs with
      | (Ok _, fs') => (true, fs')
      | (Raise _, fs') => (false, fs')
      end
  end.

Definition load_professors_json (readable : bool)
           (input_path : str) (fs : filesystem) : option pyval :=
  match (text ← read_file readable input_path fs; loads text) with
  | Raise _ => None
  | Ok professors =>
      match validate_professors_list professors with
      | Ok true => Some professors
      | _ => None
      end
  end.

End Store.
Export Store.

(** ** [scraper.py]: the driver *)

Module Pipeline.

(** The rating text of a card as the argument of the validator. *)
Definition rating_arg (rating : option str) : pyval :=
  match rating with
  | Some t => PStr t
  | None => PNone
  end.

(** The validation loop of [main]: entries in input order, invalid cards
    skipped. *)
Fixpoint validate_all (professors_raw : list professor) : result (list pyval) :=
  match professors_raw with
  | [] => Ok []
  | (name, rating, link) :: rest =>
      entry ← create_professor_entry name (rating_arg rating) link;
      professors ← validate_all rest;
      match entry with
      | Some (PDict (_ :: _) as e) => Ok (e :: professors)
      | _ => Ok professors
      end
  end.

(** From the collected cards to the artifact. *)
Definition process (fault : write_fault) (output_path : str)
           (professors_raw : list professor) (fs : filesystem)
  : result (list pyval * bool) * filesystem :=
  let professors_raw := deduplicate_professors professors_raw in
  match validate_all professors_raw with
  | Raise e => (Raise e, fs)
  | Ok professors =>
      let '(saved, fs) :=
        save_professors_json fault (PList professors) output_path fs in
      (Ok (professors, saved), fs)
  end.

(** [main]: collect with [increment=100] and [max_no_new=100], then
    process. [None] when the collection does not end within [fuel]
    rounds. *)
Definition main {W} (driver : WebDriver W) (fuel : nat) (fault : write_fault)
           (output_path : str) (w : W) (fs : filesystem)
  : option (result (list pyval * bool) * filesystem) :=
  match fine_grained_scroll_and_collect driver
          (S754_finite false 5404319552844595 (-55)) 100 100 fuel w with
  | None => None
  | Some (_, professors_raw, _) =>
      Some (process fault output_path professors_raw fs)
  end.

End Pipeline.
Export Pipeline.

(** ** [utils.py]: the rating helper the pipeline does not call *)

Module Utils.

(** The pattern of [extract_rating_from_text]: one group holding digits,
    an optional point and further digits, if any. *)
Definition rating_pattern : regex :=
  RSeq [RPlus digit_class; ROpt (RChr 46%N); RStar digit_class].

Definition extract_rating_from_text (rating_text : str) : option float :=
  match rating_text with
  | [] => None
  | _ =>
      let text := strip rating_text in
      match re_search rating_pattern text with
      | Some (b, (e, _)) =>
          let group1 := firstn (e - b) (skipn b text) in
          match Float.of_str group1 with
          | Ok rating =>
              if Float.le ScraperConfig.MIN_RATING rating
                 && Float.le rating ScraperConfig.MAX_RATING
              then Some (round_ndigits rating 2)
              else None
          | Raise _ => None     (* ValueError: pass *)
          end
      | None => None
      end
  end.

End Utils.
Export Utils.

(** ** Descriptions the properties are stated with *)

Module Spec.

(** A run of characters that satisfy [P], the longest one first, each
    tried with what follows. *)
Fixpoint greedy {A} (P : char -> bool) (p : nat) (s : str)
         (k : nat -> str -> option A) : option A :=
  match s with
  | c :: s' =>
      if P c then
        match greedy P (S p) s' k with
        | Some a => Some a
        | None => k p s
        end
      else k p s
  | [] => k p s
  end.

(** Every run of white space becomes one blank; [in_run] tells that the
    character before was white space. *)
Fixpoint collapse_from (in_run : bool) (s : str) : str :=
  match s with
  | [] => []
  | c :: s' =>
      if is_space c
      then if in_run then collapse_from true s' else 32%N :: collapse_from true s'
      else c :: collapse_from false s'
  end.

Definition collapse_whitespace (s : str) : str := collapse_from false s.

(** Where the run of white space that starts the text ends. *)
Fixpoint run_end (p : nat) (s : str) : span :=
  match s with
  | c :: s' => if is_space c then run_end (S p) s' else (p, s)
  | [] => (p, [])
  end.

(** The first run of white space at index [p] or later. *)
Fixpoint find_space_run (p : nat) (s : str) : option (nat * span) :=
  match s with
  | [] => None
  | c :: s' =>
      if is_space c then Some (p, run_end (S p) s')
      else find_space_run (S p) s'
  end.

(** The first character that satisfies [Q], at index [p] or later. *)
Fixpoint find_first (Q : char -> bool) (p : nat) (s : str) : option (nat * span) :=
  match s with
  | [] => None
  | c :: s' => if Q c then Some (p, (S p, s')) else find_first Q (S p) s'
  end.

(** Texts cut into leading white space, a core that begins and ends with
    other characters, and trailing white space. *)
Inductive framed : str -> str -> Prop :=
| framed_blank ws :
    forallb is_space ws = true -> framed ws []
| framed_core pre c k1 k2 z post :
    forallb is_space pre = true -> forallb is_space post = true ->
    is_space c = false -> is_space z = false ->
    c :: k1 = k2 ++ [z] ->
    framed (pre ++ (c :: k1) ++ post) (c :: k1).

(** The text of a name that may be missing. *)
Definition name_text (name : option str) : str := default [] name.

Definition is_letter (c : char) : bool :=
  ((65 <=? c) && (c <=? 90) || (97 <=? c) && (c <=? 122))%N.

(** Letters, the blank, comma, period, apostrophe and hyphen. *)
Definition is_name_char (c : char) : bool :=
  is_letter c || (c =? 32)%N || (c =? 44)%N || (c =? 46)%N
  || (c =? 39)%N || (c =? 45)%N.

Definition strip_other_chars (s : str) : str := List.filter is_name_char s.

(** Lowercase hex digits and the hyphen. *)
Definition is_token_char (c : char) : bool :=
  ((97 <=? c) && (c <=? 102) || (48 <=? c) && (c <=? 57) || (c =? 45))%N.

Definition professor_prefix : str := lit "https://polyratings.dev/professor/".

(** What [$] and the end of the pattern make of the text left over. *)
Definition at_eol (p : nat) (s : str) : option span :=
  rmatch REol p s (fun p' s' => rmatch REps p' s' (fun p'' s'' => Some (p'', s''))).

(** [link] is the profile prefix followed by a non-empty token. *)
Definition is_profile_link (link : str) : Prop :=
  exists token, token <> [] /\ forallb is_token_char token = true
                /\ link = professor_prefix ++ token.

(** The exact quotient [n / d = M * 2 ^ e]. *)
Definition is_ratio (n d M e : Z) : Prop :=
  if 0 <=? e then n = M * 2 ^ e * d else n * 2 ^ (- e) = M * d.

(** The value of a run of digits read after the digits that gave [a]. *)
Definition digits_from (a : Z) (ds : str) : Z :=
  fold_left (fun acc c => 10 * acc + (Z.of_N c - 48)) ds a.

(** The text goes on with something that is no digit. *)
Definition no_digit_next (rest : str) : Prop :=
  match rest with
  | [] => True
  | c :: _ => is_ascii_digit c = false
  end.

Definition digit_run (ds : str) : Prop := forallb is_ascii_digit ds = true.

(** The parts of a number as JSON writes it: the integer part is 0 or
    starts with another digit; the fraction, if any, is a point and digits;
    the exponent, if any, is e, a sign and digits, with its value. *)
Inductive int_part : str -> Prop :=
| int_zero : int_part [48%N]
| int_digits d ds :
    is_ascii_digit d = true -> d <> 48%N -> digit_run ds -> int_part (d :: ds).

Inductive frac_part : str -> Prop :=
| frac_none : frac_part []
| frac_digits f fs : digit_run (f :: fs) -> frac_part (46%N :: f :: fs).

Inductive exp_part : str -> Z -> Prop :=
| exp_none : exp_part [] 0
| exp_plus e es :
    digit_run (e :: es) -> exp_part (101%N :: 43%N :: e :: es) (digits_value (e :: es))
| exp_minus e es :
    digit_run (e :: es) -> exp_part (101%N :: 45%N :: e :: es) (- digits_value (e :: es)).

Definition sign_text (s : bool) : str := if s then [45%N] else [].

(** The text cannot go on as a number. *)
Definition ends_number (rest : str) : Prop :=
  match rest with
  | [] => True
  | c :: _ => is_ascii_digit c = false /\ c <> 46%N /\ c <> 101%N /\ c <> 69%N
  end.

(** The characters of a number text: digits, signs, point and e. *)
Definition is_number_char (c : char) : bool :=
  is_ascii_digit c || (c =? 45)%N || (c =? 43)%N || (c =? 46)%N || (c =? 101)%N.

(** A number text with its parts; floats have a fraction or an exponent. *)
Inductive number_text : str -> Prop :=
| number_parts s ip fr ex v :
    int_part ip -> frac_part fr -> exp_part ex v -> fr ++ ex <> [] ->
    number_text (sign_text s ++ ip ++ fr ++ ex).

(** The text of a list after its first item: the further items, each after
    a comma and the indent of level 1, and then the closing text. *)
Fixpoint array_tail (items : list str) (close : str) : str :=
  match items with
  | [] => close
  | x :: items' => (44%N :: newline_indent 1) ++ x ++ array_tail items' close
  end.

(** A record as the validator builds it, with a rating that is a finite
    double. *)
Definition is_entry (e : pyval) : Prop :=
  exists name rating link,
    e = professor_entry name rating link
    /\ valid_binary prec emax rating = true /\ is_finite rating = true.

(** The steps of [create_professor_entry] that follow the name step, for a
    cleaned name. *)
Definition after_name_step (clean_name : str) (rating : pyval) (link : str)
  : result (option pyval) :=
  valid_rating ← validate_rating rating;
  match valid_rating with
  | None => Ok None
  | Some valid_rating =>
      match validate_professor_link link with
      | None => Ok None
      | Some valid_link =>
          let entry := professor_entry clean_name valid_rating valid_link in
          ok ← validate_professor_data entry;
          if (ok : bool) then Ok (Some entry) else Ok None
      end
  end.

(** The double nearest to 3.67 and the double 3.5. *)
Definition f3_67 : float := S754_finite false 8264105316224860 (-51).
Definition f3_5 : float := S754_finite false 7881299347898368 (-51).

(** ** The rounds of a collection run *)

Section Run.
Context {W : Type} (driver : WebDriver W).
Variables (scroll_pause : float) (increment max_no_new : Z).

(** The page as the extractor finds it in the round of the loop that is
    entered in state [c] on page [w], and in the final pass made on
    page [w]. *)
Definition page_in_round (c : collector) (w : W) : W :=
  sleep driver scroll_pause (scroll_to driver (scroll_position c) w).

Definition page_in_final_pass (w : W) : W :=
  sleep driver (SFmul prec emax scroll_pause (S754_finite false (2 ^ 52) (-51)))
    (scroll_to_bottom driver w).

(** The states in which the run started on page [w0] enters a round of
    the loop: the first one if the page has a height, and the one after
    every round that does not end in [break] and leaves the position above
    the bottom. *)
Inductive enters_round (w0 : W) : collector -> W -> Prop :=
| enters_first :
    scroll_position (init driver w0).1 < total_height (init driver w0).1 ->
    enters_round w0 (init driver w0).1 (init driver w0).2
| enters_next c w c' w' :
    enters_round w0 c w ->
    loop_body driver scroll_pause increment max_no_new c w = (inr c', w') ->
    scroll_position c' < total_height c' ->
    enters_round w0 c' w'.

End Run.

(** The ASCII characters of the texts [float] converts: digits, white
    space, the signs, the point, the exponent letter, the underscore and the
    letters of inf, infinity and nan. *)
Definition is_float_char (c : char) : bool :=
  is_ascii_digit c || is_c_space c
  || existsb (N.eqb c)
       [43; 45; 46; 95; 101; 69; 105; 110; 102; 116; 121; 97;
        73; 78; 70; 84; 89; 65]%N.

(** Every character of [s] that is no such character is still in
    [rest]. *)
Definition passes_on (s rest : str) : Prop :=
  forall b, is_float_char b = false -> b ∈ s -> b ∈ rest.

Definition matched {A} (o : option A) : bool :=
  match o with Some _ => true | None => false end.

(** The three constraints of the record schema. *)
Definition name_ok (n : str) : bool :=
  (ScraperConfig.MIN_NAME_LENGTH <=? length n)%nat
  && ((length n <=? ScraperConfig.MAX_NAME_LENGTH)%nat
      && matched (re_search name_pattern n)).

Definition rating_ok (r : float) : bool :=
  negb (SFltb r ScraperConfig.MIN_RATING) && negb (SFltb ScraperConfig.MAX_RATING r).

Definition link_ok (l : str) : bool := matched (re_search link_pattern l).

(** [MIN_RATING <= r <= MAX_RATING] *)
Definition in_range (r : float) : bool :=
  Float.le ScraperConfig.MIN_RATING r && Float.le r ScraperConfig.MAX_RATING.

(** A record with the three fields, a rating that is a double within the
    range and contents the record schema accepts. *)
Definition is_validated_record (e : pyval) : Prop :=
  exists name rating link,
    e = professor_entry name rating link
    /\ valid_binary prec emax rating = true
    /\ in_range rating = true
    /\ valid PROFESSOR_SCHEMA e = true.

(** Below the surrogates: a character UTF-8 can encode. *)
Definition low (c : char) : bool := (c <? 55296)%N.

(** The link of a record, if the record has one that is a text. *)
Definition record_link (e : pyval) : option str :=
  match e with
  | PDict d =>
      match dict_get d (lit "link") with
      | Some (PStr l) => Some l
      | _ => None
      end
  | _ => None
  end.

(** The record of a card, when the validator accepts the card. *)
Definition accepted (p : professor) : option pyval :=
  match create_professor_entry p.1.1 (rating_arg p.1.2) p.2 with
  | Ok (Some e) => Some e
  | _ => None
  end.

End Spec.
Export Spec.

(** ** Sample pages *)

Module Samples.

Definition card (name rating id : string) : a_tag :=
  {| href := Some (lit "/professor/" ++ lit id);
     h3_text := Some (lit name);
     rating_div_text := Some (lit rating) |}.

(** A page of constant height 250 whose state counts the extractions: the
    first one sees a card of professor ab12 in lower case, the later ones
    see the same professor capitalised, next to a second professor. *)
Definition casing_driver : WebDriver nat :=
  {| page_cards w :=
       (match w with
        | O => [card "john doe" "3.5" "ab12"]
        | _ => [card "John Doe" "3.5" "ab12"; card "Smith" "2.0" "cd34"]
        end, S w);
     scroll_height w := (250, w);
     scroll_to _ w := w;
     scroll_to_bottom w := w;
     sleep _ w := w |}.

Definition pause : float := S754_finite false 5404319552844595 (-55).

Definition link_ab12 : str := lit "https://polyratings.dev/professor/ab12".

Definition artifact_path : str := lit "data/professors.json".

(** A file system whose artifact holds the text old. *)
Definition old_fs : filesystem := <[artifact_path := lit "old"]> ∅.

Definition smith : pyval := professor_entry (lit "Smith, John") f3_5 link_ab12.

End Samples.
Export Samples.

(** * Properties *)

(** ** De-duplication *)

Section Dedup.
Implicit Types (l u : list professor) (seen : gset str) (p : professor).

Lemma dedup_loop_app l : forall seen u,
  dedup_loop l seen u = u ++ dedup_loop l seen [].
Proof.
  induction l as [|[[name rating] link] l IH]; intros seen u; simpl.
  - by rewrite app_nil_r.
  - case_bool_decide.
    + apply IH.
    + rewrite (IH _ (u ++ _)), (IH _ [_]). by rewrite <- app_assoc.
Qed.

Lemma dedup_loop_cons name rating link l seen :
  dedup_loop ((name, rating, link) :: l) seen [] =
    if bool_decide (link ∈ seen) then dedup_loop l seen []
    else (name, rating, link) :: dedup_loop l ({[link]} ∪ seen) [].
Proof.
  simpl. case_bool_decide; [done|]. by rewrite dedup_loop_app.
Qed.

Lemma dedup_loop_sublist l : forall seen, dedup_loop l seen [] `sublist_of` l.
Proof.
  induction l as [|[[name rating] link] l IH]; intros seen.
  - constructor.
  - rewrite dedup_loop_cons. case_bool_decide.
    + by apply sublist_cons.
    + by apply sublist_skip.
Qed.

Lemma dedup_loop_fresh l : forall seen p,
  p ∈ dedup_loop l seen [] -> prof_link p ∉ seen.
Proof.
  induction l as [|[[name rating] link] l IH]; intros seen p.
  - simpl. by intros ?%elem_of_nil.
  - rewrite dedup_loop_cons. case_bool_decide as Hin.
    + apply IH.
    + intros [->|Hp]%elem_of_cons; [done|].
      apply IH in Hp. set_solver.
Qed.

Lemma dedup_loop_NoDup l : forall seen,
  NoDup (prof_link <$> dedup_loop l seen []).
Proof.
  induction l as [|[[name rating] link] l IH]; intros seen.
  - constructor.
  - rewrite dedup_loop_cons. case_bool_decide; [apply IH|].
    rewrite fmap_cons. constructor; [|apply IH].
    intros (q & Hq & Hin)%list_elem_of_fmap.
    apply dedup_loop_fresh in Hin. simpl in Hq. set_solver.
Qed.

Lemma dedup_loop_covers l : forall seen p,
  p ∈ l -> prof_link p ∈ seen \/ prof_link p ∈ prof_link <$> dedup_loop l seen [].
Proof.
  induction l as [|[[name rating] link] l IH]; intros seen p.
  - by intros ?%elem_of_nil.
  - rewrite dedup_loop_cons. intros [->|Hp]%elem_of_cons.
    + case_bool_decide; [by left|]. right. rewrite fmap_cons. by left.
    + case_bool_decide; [by apply IH|].
      destruct (IH ({[link]} ∪ seen) p Hp) as [Hs|Hs].
      * apply elem_of_union in Hs as [Hs%elem_of_singleton|Hs]; [|by left].
        right. rewrite fmap_cons, Hs. by left.
      * right. rewrite fmap_cons. by right.
Qed.

Lemma dedup_loop_first l : forall seen p,
  p ∈ dedup_loop l seen [] -> first_with_link (prof_link p) l = Some p.
Proof.
  induction l as [|[[name rating] link] l IH]; intros seen p.
  - by intros ?%elem_of_nil.
  - rewrite dedup_loop_cons. unfold first_with_link. simpl.
    case_bool_decide as Hseen.
    + intros Hp. pose proof (dedup_loop_fresh _ _ _ Hp) as Hfresh.
      case_bool_decide as Hl; [congruence|]. by eapply IH.
    + intros [->|Hp]%elem_of_cons.
      * simpl. by rewrite bool_decide_eq_true_2.
      * pose proof (dedup_loop_fresh _ _ _ Hp) as Hfresh.
        case_bool_decide as Hl; [set_solver|]. by eapply IH.
Qed.
End Dedup.

(** C10. The de-duplication pass of the driver returns a subsequence of its
    input in which every link of the input occurs exactly once, and the card
    kept for a link is the first one that carries it in the input. *)
Theorem deduplicate_professors_first_seen (professors : list professor) :
  deduplicate_professors professors `sublist_of` professors
  /\ NoDup (prof_link <$> deduplicate_professors professors)
  /\ (forall p, p ∈ professors ->
        prof_link p ∈ prof_link <$> deduplicate_professors professors)
  /\ (forall p, p ∈ deduplicate_professors professors ->
        first_with_link (prof_link p) professors = Some p).
Proof.
  unfold deduplicate_professors. repeat split.
  - apply dedup_loop_sublist.
  - apply dedup_loop_NoDup.
  - intros p Hp. destruct (dedup_loop_covers _ ∅ _ Hp) as [H|H]; [set_solver|done].
  - apply dedup_loop_first.
Qed.

(** ** The collector *)

Section CollectorFacts.
Context {W : Type} (driver : WebDriver W).
Variables (scroll_pause : float) (increment max_no_new : Z).

Lemma elem_of_add_all (current : list professor) : forall acc p,
  p ∈ add_all current acc <-> p ∈ current \/ p ∈ acc.
Proof.
  unfold add_all. induction current as [|q current IH]; intros acc p; simpl.
  - set_solver.
  - rewrite IH. set_solver.
Qed.

Lemma holds_observed_add (c c' : collector) current :
  holds_observed c ->
  all_professors c' = add_all current (all_professors c) ->
  observed c' = observed c ++ [current] ->
  holds_observed c'.
Proof.
  intros Hc Hall Hobs p. rewrite Hall, Hobs, elem_of_add_all, (Hc p). split.
  - intros [Hp|(obs & Ho & Hp)].
    + exists current. split; [set_solver|done].
    + exists obs. split; [set_solver|done].
  - intros (obs & [Ho|Ho%list_elem_of_singleton]%elem_of_app & Hp).
    + right. eauto.
    + left. by subst.
Qed.

(** What one round of the loop does to the accumulator and to the log. *)
Lemma loop_body_spec (c : collector) (w : W) :
  exists current c' w',
    (loop_body driver scroll_pause increment max_no_new c w = (inl c', w')
     \/ loop_body driver scroll_pause increment max_no_new c w = (inr c', w'))
    /\ all_professors c' = add_all current (all_professors c)
    /\ observed c' = observed c ++ [current].
Proof.
  unfold loop_body.
  destruct (extract_professors_from_dom _ _) as [current w1].
  destruct (if set_len _ =? _ then _ else _) as [no_new last].
  destruct (max_no_new <=? no_new).
  - eexists current, _, _. split; [by left|done].
  - destruct (scroll_height driver w1) as [h w2].
    eexists current, _, _. split; [by right|done].
Qed.

Lemma loop_body_holds_observed c w r w' :
  holds_observed c ->
  loop_body driver scroll_pause increment max_no_new c w = (r, w') ->
  holds_observed (match r with inl c' | inr c' => c' end).
Proof.
  intros Hc Hr.
  destruct (loop_body_spec c w) as (current & c' & w1 & [E|E] & Hall & Hobs);
    rewrite E in Hr; injection Hr as <- <-; by eapply holds_observed_add.
Qed.

Lemma scroll_loop_holds_observed fuel : forall c w c' w',
  holds_observed c ->
  scroll_loop driver scroll_pause increment max_no_new fuel c w = Some (c', w') ->
  holds_observed c'.
Proof.
  induction fuel as [|fuel IH]; intros c w c' w' Hc; simpl.
  - destruct (_ <? _); [done|]. by intros [= <- <-].
  - destruct (_ <? _); [|by intros [= <- <-]].
    destruct (loop_body _ _ _ _ c w) as [[c1|c1] w1] eqn:E;
      pose proof (loop_body_holds_observed _ _ _ _ Hc E) as H1.
    + by intros [= <- <-].
    + by apply IH.
Qed.

Lemma init_holds_observed w : holds_observed (init driver w).1.
Proof.
  unfold init. destruct (scroll_height driver w) as [h w1]. simpl.
  intros p. simpl. split; [set_solver|].
  intros (obs & Ho & _). by apply elem_of_nil in Ho.
Qed.

Lemma final_pass_holds_observed c w :
  holds_observed c -> holds_observed (final_pass driver scroll_pause c w).1.
Proof.
  intros Hc. unfold final_pass.
  destruct (extract_professors_from_dom _ _) as [current w1]. simpl.
  by eapply holds_observed_add.
Qed.

Lemma collect_holds_observed fuel w c res w' :
  fine_grained_scroll_and_collect driver scroll_pause increment max_no_new fuel w
    = Some (c, res, w') ->
  holds_observed c /\ res = elements (all_professors c).
Proof.
  unfold fine_grained_scroll_and_collect.
  pose proof (init_holds_observed w) as H0.
  destruct (init driver w) as [c0 w0]. simpl in H0.
  destruct (scroll_loop _ _ _ _ fuel c0 w0) as [[c1 w1]|] eqn:E; [|done].
  pose proof (scroll_loop_holds_observed _ _ _ _ _ H0 E) as H1.
  pose proof (final_pass_holds_observed c1 w1 H1) as H2.
  destruct (final_pass _ _ c1 w1) as [c2 w2]. simpl in H2.
  by intros [= <- <- <-].
Qed.

(** The accumulator never loses a card in a round of the loop. *)
Lemma loop_body_grows c w r w' :
  loop_body driver scroll_pause increment max_no_new c w = (r, w') ->
  all_professors c ⊆ all_professors (match r with inl c' | inr c' => c' end).
Proof.
  intros Hr.
  destruct (loop_body_spec c w) as (current & c' & w1 & [E|E] & Hall & _);
    rewrite E in Hr; injection Hr as <- <-; rewrite Hall;
    intros p Hp; apply elem_of_add_all; by right.
Qed.

(** The loop ends when the page stops growing: with a positive increment
    and page heights bounded by [H], enough fuel gives a result. *)
Lemma scroll_loop_terminates (H : Z) :
  0 < increment ->
  (forall w, (scroll_height driver w).1 <= H) ->
  forall fuel c w,
    (Z.to_nat (H - scroll_position c) <= fuel * Z.to_nat increment)%nat ->
    total_height c <= H ->
    is_Some (scroll_loop driver scroll_pause increment max_no_new fuel c w).
Proof.
  intros Hinc Hbound. induction fuel as [|fuel IH]; intros c w Hfuel Hh; simpl.
  - destruct (Z.ltb_spec (scroll_position c) (total_height c)); [lia|done].
  - destruct (Z.ltb_spec (scroll_position c) (total_height c)); [|done].
    unfold loop_body.
    destruct (extract_professors_from_dom _ _) as [current w1].
    destruct (if set_len _ =? _ then _ else _) as [no_new last].
    destruct (max_no_new <=? no_new); [done|].
    pose proof (Hbound w1) as Hb.
    destruct (scroll_height driver w1) as [h w2]. simpl in Hb.
    apply IH; simpl; [|done]. nia.
Qed.
End CollectorFacts.

(** ** The collector and the extractor *)

Section RunFacts.
Context {W : Type} (driver : WebDriver W).
Variables (scroll_pause : float) (increment max_no_new : Z).

Local Abbreviation loop_body' := (loop_body driver scroll_pause increment max_no_new).
Local Abbreviation scroll_loop' := (scroll_loop driver scroll_pause increment max_no_new).
Local Abbreviation enters_round' := (enters_round driver scroll_pause increment max_no_new).
Local Abbreviation cards_in_round c w :=
  (extract_professors_from_dom driver (page_in_round driver scroll_pause c w)).1.
Local Abbreviation cards_in_final_pass w :=
  (extract_professors_from_dom driver (page_in_final_pass driver scroll_pause w)).1.

(** A round adds the cards the extractor returns on the page of the
    round. *)
Lemma loop_body_extracts c w r w' :
  loop_body' c w = (r, w') ->
  all_professors (match r with inl c' | inr c' => c' end)
  = add_all (cards_in_round c w) (all_professors c).
Proof.
  unfold loop_body, page_in_round.
  destruct (extract_professors_from_dom _ _) as [current w1]. simpl.
  destruct (if set_len _ =? _ then _ else _) as [no_new last].
  destruct (max_no_new <=? no_new).
  - by intros [= <- <-].
  - destruct (scroll_height driver w1) as [h w2]. by intros [= <- <-].
Qed.

Lemma final_pass_extracts c w :
  all_professors (final_pass driver scroll_pause c w).1
  = add_all (cards_in_final_pass w) (all_professors c).
Proof.
  unfold final_pass, page_in_final_pass.
  by destruct (extract_professors_from_dom _ _) as [current w1].
Qed.

Lemma scroll_loop_grows fuel : forall c w c1 w1,
  scroll_loop' fuel c w = Some (c1, w1) -> all_professors c ⊆ all_professors c1.
Proof.
  induction fuel as [|fuel IH]; intros c w c1 w1; simpl.
  - destruct (_ <? _); [done|]. by intros [= <- <-].
  - destruct (_ <? _); [|by intros [= <- <-]].
    destruct (loop_body' c w) as [[c'|c'] w'] eqn:E;
      pose proof (loop_body_grows _ _ _ _ _ _ _ _ E) as Hg; simpl in Hg.
    + by intros [= <- <-].
    + intros Hr. apply IH in Hr. set_solver.
Qed.

Lemma enters_round_above w0 c w :
  enters_round' w0 c w -> scroll_position c < total_height c.
Proof. by intros [?|? ? ? ? _ _ ?]. Qed.

(** A state in which the run enters a round lies on the way of the loop. *)
Lemma enters_round_on_the_way fuel w0 c1 w1 c w :
  scroll_loop' fuel (init driver w0).1 (init driver w0).2 = Some (c1, w1) ->
  enters_round' w0 c w ->
  exists fuel', scroll_loop' (S fuel') c w = Some (c1, w1).
Proof.
  intros Hrun. induction 1 as [Hab|c w c' w' Hc IH Hb Hab].
  - destruct fuel as [|fuel]; [|by exists fuel].
    simpl in Hrun. by rewrite (proj2 (Z.ltb_lt _ _) Hab) in Hrun.
  - destruct IH as [fuel' IH]. simpl in IH.
    rewrite (proj2 (Z.ltb_lt _ _) (enters_round_above _ _ _ Hc)), Hb in IH.
    destruct fuel' as [|fuel']; [|by exists fuel'].
    simpl in IH. by rewrite (proj2 (Z.ltb_lt _ _) Hab) in IH.
Qed.

(** The cards of a round are in the accumulator when the loop is left. *)
Lemma round_cards_kept fuel w0 c1 w1 c w p :
  scroll_loop' fuel (init driver w0).1 (init driver w0).2 = Some (c1, w1) ->
  enters_round' w0 c w ->
  p ∈ cards_in_round c w -> p ∈ all_professors c1.
Proof.
  intros Hrun Hc Hp.
  destruct (enters_round_on_the_way _ _ _ _ _ _ Hrun Hc) as [fuel' Hf].
  simpl in Hf. rewrite (proj2 (Z.ltb_lt _ _) (enters_round_above _ _ _ Hc)) in Hf.
  destruct (loop_body' c w) as [[c'|c'] w'] eqn:E;
    pose proof (loop_body_extracts _ _ _ _ E) as Hx; simpl in Hx.
  - injection Hf as <- <-. rewrite Hx. apply elem_of_add_all. by left.
  - apply scroll_loop_grows in Hf. apply Hf. rewrite Hx.
    apply elem_of_add_all. by left.
Qed.

(** Whatever the accumulator holds when the loop is left was there when
    the loop was at [(c, w)] or is a card of a round of the run. *)
Lemma scroll_loop_only_cards w0 fuel : forall c w c1 w1 p,
  (scroll_position c < total_height c -> enters_round' w0 c w) ->
  scroll_loop' fuel c w = Some (c1, w1) ->
  p ∈ all_professors c1 ->
  p ∈ all_professors c
  \/ exists c' w', enters_round' w0 c' w' /\ p ∈ cards_in_round c' w'.
Proof.
  induction fuel as [|fuel IH]; intros c w c1 w1 p Hc; simpl.
  - destruct (_ <? _); [done|]. intros [= <- <-]. by left.
  - destruct (Z.ltb_spec (scroll_position c) (total_height c)) as [Hab|Hab];
      [|intros [= <- <-]; by left].
    specialize (Hc Hab).
    destruct (loop_body' c w) as [[c'|c'] w'] eqn:E;
      pose proof (loop_body_extracts _ _ _ _ E) as Hx; simpl in Hx.
    + intros [= <- <-]. rewrite Hx. intros [Hp|Hp]%elem_of_add_all; [|by left].
      right. eauto.
    + intros Hr Hp.
      assert (scroll_position c' < total_height c' -> enters_round' w0 c' w') as Hc'
        by (intros Hab'; by eapply enters_next).
      destruct (IH c' w' c1 w1 p Hc' Hr Hp) as [Hq|Hq]; [|by right].
      rewrite Hx in Hq. apply elem_of_add_all in Hq as [Hq|Hq]; [|by left].
      right. eauto.
Qed.

Lemma run_unfold fuel w c res w' :
  fine_grained_scroll_and_collect driver scroll_pause increment max_no_new fuel w
    = Some (c, res, w') ->
  exists c1 w1,
    scroll_loop' fuel (init driver w).1 (init driver w).2 = Some (c1, w1)
    /\ c = (final_pass driver scroll_pause c1 w1).1
    /\ res = elements (all_professors c).
Proof.
  unfold fine_grained_scroll_and_collect.
  destruct (init driver w) as [c0 w0]. simpl.
  destruct (scroll_loop' fuel c0 w0) as [[c1 w1]|]; [|done].
  destruct (final_pass driver scroll_pause c1 w1) as [c2 w2] eqn:E.
  intros [= <- <- <-]. exists c1, w1. by rewrite E.
Qed.

(** The cards the collector returns are those of the rounds of the run
    and of its final pass. *)
Lemma run_cards fuel w c res w' c1 w1 :
  fine_grained_scroll_and_collect driver scroll_pause increment max_no_new fuel w
    = Some (c, res, w') ->
  scroll_loop' fuel (init driver w).1 (init driver w).2 = Some (c1, w1) ->
  forall p, p ∈ res <->
    (exists c0 w0, enters_round' w c0 w0 /\ p ∈ cards_in_round c0 w0)
    \/ p ∈ cards_in_final_pass w1.
Proof.
  intros (c1' & w1' & Hloop & -> & ->)%run_unfold Hloop' p.
  rewrite Hloop in Hloop'. injection Hloop' as -> ->.
  rewrite elem_of_elements, final_pass_extracts, elem_of_add_all. split.
  - intros [Hp|Hp]; [by right|].
    destruct (scroll_loop_only_cards w fuel _ _ _ _ p (enters_first _ _ _ _ w) Hloop Hp)
      as [Hq|Hq]; [|by left].
    unfold init in Hq. destruct (scroll_height driver w). simpl in Hq. set_solver.
  - intros [(c0 & w0 & Hc & Hp)|Hp]; [right|by left].
    by eapply round_cards_kept.
Qed.

Lemma run_terminates (H : Z) w :
  0 < increment ->
  (forall w0, (scroll_height driver w0).1 <= H) ->
  is_Some (fine_grained_scroll_and_collect driver scroll_pause increment max_no_new
             (Z.to_nat H) w).
Proof.
  intros Hinc Hbound. unfold fine_grained_scroll_and_collect.
  pose proof (Hbound w) as Hw.
  destruct (scroll_loop_terminates driver scroll_pause increment max_no_new H Hinc Hbound
              (Z.to_nat H) (init driver w).1 (init driver w).2) as [[c1 w1] Hs].
  - unfold init. destruct (scroll_height driver w). simpl. nia.
  - unfold init. destruct (scroll_height driver w). by simpl in *.
  - destruct (init driver w) as [c0 w0]. simpl in Hs. rewrite Hs.
    destruct (final_pass _ _ _ _). by eexists.
Qed.
End RunFacts.



(** ** Regular expressions *)

Section ReFacts.
Context {A : Type}.
Implicit Types (k : nat -> str -> option A) (s t : str) (p : nat).

Lemma star_class neg items fuel : forall s p k,
  (length s < fuel)%nat ->
  star (rmatch (RSet neg items)) fuel p s k = greedy (set_matches neg items) p s k.
Proof.
  induction fuel as [|fuel IH]; intros s p k Hf; [lia|].
  destruct s as [|c s]; simpl; [done|].
  destruct (set_matches neg items c); [|done].
  rewrite (proj2 (Nat.ltb_lt _ _)) by lia.
  rewrite IH by (simpl in Hf; lia). done.
Qed.

Lemma rmatch_plus_class neg items s p k :
  rmatch (RPlus (RSet neg items)) p s k =
    match s with
    | c :: s' =>
        if set_matches neg items c
        then greedy (set_matches neg items) (S p) s' k else None
    | [] => None
    end.
Proof.
  change (rmatch (RPlus (RSet neg items)) p s k) with
    (match s with
     | x :: s' =>
         if set_matches neg items x
         then star (rmatch (RSet neg items)) (S (length s')) (S p) s' k
         else None
     | [] => None
     end).
  destruct s as [|c s]; [done|].
  destruct (set_matches neg items c); [|done].
  apply star_class. lia.
Qed.

Lemma rmatch_cat r1 r2 p s k :
  rmatch (RCat r1 r2) p s k = rmatch r1 p s (fun p' s' => rmatch r2 p' s' k).
Proof. reflexivity. Qed.

Lemma rmatch_bol s k : rmatch RBol 0%nat s k = k 0%nat s.
Proof. reflexivity. Qed.

Lemma greedy_ext (P Q : char -> bool) :
  (forall c, P c = Q c) -> forall s p k, greedy P p s k = greedy Q p s k.
Proof.
  intros HPQ. induction s as [|c s IH]; intros p k; simpl; [done|].
  by rewrite HPQ, IH.
Qed.

Lemma rmatch_chars t : forall s p k,
  rmatch (RSeq (List.map RChr t)) p s k =
    if startswith s t then k (p + length t)%nat (skipn (length t) s) else None.
Proof.
  induction t as [|a t IH]; intros s p k.
  - simpl. by rewrite Nat.add_0_r.
  - destruct s as [|b s]; [done|].
    cbn [List.map RSeq fold_right rmatch startswith].
    fold (RSeq (List.map RChr t)).
    rewrite (N.eqb_sym a b). destruct (b =? a)%N; [|done].
    rewrite IH. simpl. by rewrite Nat.add_succ_r.
Qed.
End ReFacts.

(** ** The link check *)

Lemma token_items_spec c : set_matches false token_items c = is_token_char c.
Proof.
  unfold set_matches, token_items, is_token_char. simpl.
  by rewrite orb_false_r, orb_assoc.
Qed.

Lemma at_eol_spec p s : is_Some (at_eol p s) <-> s = [] \/ s = [10%N].
Proof.
  unfold at_eol. simpl. destruct s as [|c [|d s]]; simpl.
  - split; [by left|by eexists].
  - destruct (N.eqb_spec c 10) as [->|Hc].
    + split; [by right|by eexists].
    + split; [by intros [? ?]|]. intros [?|[= ->]]; done.
  - split; [by intros [? ?]|]. by intros [?|?].
Qed.

Lemma greedy_token_eol s : forall p,
  is_Some (greedy is_token_char p s at_eol) <->
  exists run, forallb is_token_char run = true /\ (s = run \/ s = run ++ [10%N]).
Proof.
  induction s as [|c s IH]; intros p.
  - simpl. split; [|by eexists]. intros _. exists []. by split; [|left].
  - cbn [greedy]. destruct (is_token_char c) eqn:Hc.
    + assert (is_Some (at_eol p (c :: s)) -> False) as Hno.
      { intros [?|[= -> ->]]%at_eol_spec; done. }
      split.
      * destruct (greedy is_token_char (S p) s at_eol) eqn:E; [|by intros ?%Hno].
        intros _. destruct (proj1 (IH (S p))) as (run & Hrun & Hs).
        { rewrite E. by eexists. }
        exists (c :: run). simpl. rewrite Hc, Hrun.
        split; [done|]. destruct Hs as [->| ->]; [by left|by right].
      * intros (run & Hrun & Hs).
        destruct run as [|c' run].
        { destruct Hs as [?|[= -> ->]]; done. }
        simpl in Hrun. apply andb_true_iff in Hrun as [_ Hrun].
        destruct (proj2 (IH (S p))) as [a Ha].
        { exists run. split; [done|].
          destruct Hs as [[= _ ->]|[= _ ->]]; [by left|by right]. }
        rewrite Ha. by eexists.
    + rewrite at_eol_spec. split.
      * intros [?|[= -> ->]]; [done|]. exists []. by split; [|right].
      * intros ([|c' run] & Hrun & Hs).
        { destruct Hs as [?|?]; [done|by right]. }
        simpl in Hrun. apply andb_true_iff in Hrun as [Hc' _].
        destruct Hs as [[= -> _]|[= -> _]]; congruence.
Qed.

Lemma startswith_spec t : forall s, startswith s t = true <-> exists r, s = t ++ r.
Proof.
  induction t as [|a t IH]; intros s; simpl.
  - split; [by exists s|done].
  - destruct s as [|b s]; [split; [done|by intros [? ?]]|].
    rewrite andb_true_iff, N.eqb_eq, IH. split.
    + intros [-> [r ->]]. by exists r.
    + intros [r [= -> ->]]. split; [done|by exists r].
Qed.

Lemma re_match_link_pattern link :
  is_Some (re_match link_pattern link) <->
  exists token, token <> [] /\ forallb is_token_char token = true
                /\ (link = professor_prefix ++ token
                    \/ link = professor_prefix ++ token ++ [10%N]).
Proof.
  unfold re_match, link_pattern.
  change (RSeq [RBol; RLit "https://polyratings.dev/professor/";
                RPlus (RSet false token_items); REol])
    with (RCat RBol (RCat (RSeq (List.map RChr professor_prefix))
                       (RCat (RPlus (RSet false token_items)) (RCat REol REps)))).
  rewrite rmatch_cat, rmatch_bol, rmatch_cat, rmatch_chars.
  destruct (startswith link professor_prefix) eqn:Hp.
  - apply startswith_spec in Hp as [r ->].
    rewrite drop_app_length, rmatch_cat, rmatch_plus_class.
    change (fun p' s' => rmatch (RCat REol REps) p' s' (fun p'0 s'0 => Some (p'0, s'0)))
      with at_eol.
    destruct r as [|c r].
    { split; [by intros [? ?]|].
      intros (token & Hne & _ & [H|H]); apply app_inv_head in H;
        destruct token; done. }
    rewrite token_items_spec.
    rewrite (greedy_ext _ is_token_char) by apply token_items_spec.
    destruct (is_token_char c) eqn:Hc.
    + rewrite greedy_token_eol. split.
      * intros (run & Hrun & Hr). exists (c :: run). simpl. rewrite Hc, Hrun.
        split; [done|]. split; [done|].
        destruct Hr as [->| ->]; [by left|by right].
      * intros ([|c' token] & Hne & Htok & Hl); [done|].
        simpl in Htok. apply andb_true_iff in Htok as [_ Htok].
        exists token. split; [done|].
        destruct Hl as [Hl|Hl]; apply app_inv_head in Hl;
          injection Hl as _ ->; [by left|by right].
    + split; [by intros [? ?]|].
      intros ([|c' token] & Hne & Htok & Hl); [done|].
      simpl in Htok. apply andb_true_iff in Htok as [Hc' _].
      destruct Hl as [Hl|Hl]; apply app_inv_head in Hl;
        injection Hl as -> _; congruence.
  - split; [by intros [? ?]|].
    intros (token & _ & _ & Hl).
    assert (startswith link professor_prefix = true) as Hp'; [|congruence].
    apply startswith_spec. destruct Hl as [->| ->]; eauto.
Qed.

Lemma validate_professor_link_spec link :
  validate_professor_link link = Some link <->
  exists token, token <> [] /\ forallb is_token_char token = true
                /\ (link = professor_prefix ++ token
                    \/ link = professor_prefix ++ token ++ [10%N]).
Proof.
  rewrite <- re_match_link_pattern. unfold validate_professor_link.
  destruct link as [|c link].
  - split; [done|]. by intros [? ?].
  - destruct (re_match link_pattern (c :: link)); split; try done;
      by intros [? ?].
Qed.

(** C9. The link check accepts the profile prefix followed by a non-empty
    token of lowercase hex digits and hyphens, and rejects
    "https://polyratings.dev/professor/invalid"; but it also accepts such a
    link followed by one line feed, which is not of that form: [$] matches
    before a final line feed. *)
Theorem validate_professor_link_accepts_final_line_feed :
  (forall link,
     validate_professor_link link = Some link <->
     is_profile_link link
     \/ exists link0, is_profile_link link0 /\ link = link0 ++ [10%N])
  /\ (forall link, validate_professor_link link = Some link
                   \/ validate_professor_link link = None)
  /\ validate_professor_link (lit "https://polyratings.dev/professor/invalid") = None
  /\ (let link := lit "https://polyratings.dev/professor/ab12" ++ [10%N] in
      validate_professor_link link = Some link /\ ~ is_profile_link link).
Proof.
  split; [|split; [|split; [|split]]].
  - intros link. rewrite validate_professor_link_spec. unfold is_profile_link. split.
    + intros (token & Hne & Htok & [->| ->]).
      * left. by exists token.
      * right. exists (professor_prefix ++ token).
        split; [by exists token|]. by rewrite <- app_assoc.
    + intros [(token & Hne & Htok & ->)|(link0 & (token & Hne & Htok & ->) & ->)];
        exists token; (split; [done|]); (split; [done|]).
      * by left.
      * right. by rewrite <- app_assoc.
  - intros link. unfold validate_professor_link.
    destruct link; [by right|]. destruct (re_match _ _); [by left|by right].
  - by vm_compute.
  - by vm_compute.
  - intros (token & _ & Htok & Hl).
    change (lit "https://polyratings.dev/professor/ab12" ++ [10%N])
      with (professor_prefix ++ lit "ab12" ++ [10%N]) in Hl.
    apply app_inv_head in Hl. subst token. by vm_compute in Htok.
Qed.

(** ** Cleaning a name *)

Lemma greedy_space_run (adv : bool) (p0 : nat) s : forall p,
  (p0 < p)%nat ->
  greedy is_space p s
    (fun p' s' => if adv && (p' =? p0)%nat then None else Some (p', s'))
  = Some (run_end p s).
Proof.
  induction s as [|c s IH]; intros p Hp; simpl.
  - rewrite (proj2 (Nat.eqb_neq p p0)) by lia. by rewrite andb_false_r.
  - destruct (is_space c).
    + by rewrite IH by lia.
    + rewrite (proj2 (Nat.eqb_neq p p0)) by lia. by rewrite andb_false_r.
Qed.

Lemma space_class_spec c : set_matches false [CSpace] c = is_space c.
Proof. unfold set_matches. simpl. by rewrite orb_false_r. Qed.

Lemma search_spaces s : forall adv p,
  search_from spaces_pattern adv p s = find_space_run p s.
Proof.
  induction s as [|c s IH]; intros adv p.
  - reflexivity.
  - cbn [search_from find_space_run]. unfold spaces_pattern, space_class.
    rewrite rmatch_plus_class, space_class_spec.
    destruct (is_space c).
    + rewrite (greedy_ext _ is_space) by apply space_class_spec.
      by rewrite greedy_space_run by lia.
    + apply IH.
Qed.

Lemma run_end_length s : forall p, (length (run_end p s).2 <= length s)%nat.
Proof.
  induction s as [|c s IH]; intros p; simpl; [done|].
  destruct (is_space c); simpl; [|done]. specialize (IH (S p)). lia.
Qed.

Lemma collapse_in_run s : forall p,
  collapse_from true s = collapse_from false (run_end p s).2.
Proof.
  induction s as [|c s IH]; intros p; simpl; [done|].
  destruct (is_space c) eqn:Hc; [apply IH|]. simpl. by rewrite Hc.
Qed.

Lemma collapse_find_space_run s : forall p,
  match find_space_run p s with
  | None => collapse_whitespace s = s
  | Some (b, (e, s')) =>
      collapse_whitespace s = take (b - p) s ++ lit " " ++ collapse_whitespace s'
      /\ (length s' < length s)%nat
  end.
Proof.
  unfold collapse_whitespace.
  induction s as [|c s IH]; intros p; simpl; [done|].
  destruct (is_space c) eqn:Hc.
  - pose proof (run_end_length s (S p)) as Hlen.
    pose proof (collapse_in_run s (S p)) as Hcol.
    destruct (run_end (S p) s) as [e s']. simpl in *.
    rewrite Nat.sub_diag. simpl. split; [by rewrite Hcol|lia].
  - specialize (IH (S p)).
    assert (forall b e s', find_space_run (S p) s = Some (b, (e, s')) -> (S p <= b)%nat) as Hb.
    { clear. revert p. induction s as [|d s IH]; intros p b e s'; simpl; [done|].
      destruct (is_space d); [by intros [= <- _]|].
      intros H%IH. lia. }
    destruct (find_space_run (S p) s) as [[b [e s']]|] eqn:E.
    + destruct IH as [-> Hlen]. specialize (Hb _ _ _ eq_refl).
      replace (b - p)%nat with (S (b - S p)) by lia. simpl. split; [done|lia].
    + by rewrite IH.
Qed.

Lemma sub_spaces fuel : forall s adv p,
  (length s < fuel)%nat ->
  sub_loop fuel spaces_pattern (lit " ") adv p s = collapse_whitespace s.
Proof.
  induction fuel as [|fuel IH]; intros s adv p Hf; [lia|].
  cbn [sub_loop]. rewrite search_spaces.
  pose proof (collapse_find_space_run s p) as H.
  destruct (find_space_run p s) as [[b [e s']]|]; [|done].
  destruct H as [-> Hlen]. by rewrite IH by lia.
Qed.

Lemma re_sub_spaces s : re_sub spaces_pattern (lit " ") s = collapse_whitespace s.
Proof. apply sub_spaces. lia. Qed.

Lemma search_negated_class items s : forall adv p,
  search_from (RSet true items) adv p s = find_first (set_matches true items) p s.
Proof.
  induction s as [|c s IH]; intros adv p; [reflexivity|].
  cbn [search_from find_first rmatch].
  destruct (set_matches true items c); [|apply IH].
  rewrite (proj2 (Nat.eqb_neq (S p) p)) by lia. by rewrite andb_false_r.
Qed.

Lemma filter_find_first (Q : char -> bool) s : forall p,
  match find_first Q p s with
  | None => List.filter (fun c => negb (Q c)) s = s
  | Some (b, (e, s')) =>
      List.filter (fun c => negb (Q c)) s
      = take (b - p) s ++ List.filter (fun c => negb (Q c)) s'
      /\ (length s' < length s)%nat
  end.
Proof.
  induction s as [|c s IH]; intros p; simpl; [done|].
  destruct (Q c) eqn:Hc; simpl.
  - rewrite Nat.sub_diag. simpl. split; [done|lia].
  - specialize (IH (S p)).
    assert (forall b e s', find_first Q (S p) s = Some (b, (e, s')) -> (S p <= b)%nat) as Hb.
    { clear. revert p. induction s as [|d s IH]; intros p b e s'; simpl; [done|].
      destruct (Q d); [by intros [= <- _]|].
      intros H%IH. lia. }
    destruct (find_first Q (S p) s) as [[b [e s']]|] eqn:E.
    + destruct IH as [-> Hlen]. specialize (Hb _ _ _ eq_refl).
      replace (b - p)%nat with (S (b - S p)) by lia. simpl. split; [done|lia].
    + by rewrite IH.
Qed.

Lemma sub_negated_class items fuel : forall s adv p,
  (length s < fuel)%nat ->
  sub_loop fuel (RSet true items) [] adv p s
  = List.filter (set_matches false items) s.
Proof.
  assert (forall t, List.filter (set_matches false items) t
                    = List.filter (fun c => negb (set_matches true items c)) t) as Hflt.
  { intros t. apply filter_ext. intros c. unfold set_matches.
    by destruct (existsb _ _). }
  induction fuel as [|fuel IH]; intros s adv p Hf; [lia|].
  cbn [sub_loop]. rewrite search_negated_class, Hflt.
  pose proof (filter_find_first (set_matches true items) s p) as H.
  destruct (find_first _ p s) as [[b [e s']]|]; [|done].
  destruct H as [-> Hlen]. rewrite IH by lia. by rewrite Hflt.
Qed.

Lemma re_sub_not_name_char s :
  re_sub not_name_char_pattern [] s = List.filter (set_matches false name_items) s.
Proof. apply sub_negated_class. lia. Qed.

Lemma framed_exists s : exists core, framed s core.
Proof.
  induction s as [|a s [core IH]].
  - exists []. by constructor.
  - destruct (is_space a) eqn:Ha; inversion IH; subst.
    + exists []. constructor. simpl. by rewrite Ha.
    + exists (c :: k1). apply (framed_core (a :: pre) c k1 k2 z post); try done.
      simpl. by rewrite Ha.
    + exists [a]. apply (framed_core [] a [] [] a s); done.
    + exists (a :: pre ++ c :: k1).
      assert (a :: pre ++ (c :: k1) ++ post
              = [] ++ (a :: pre ++ c :: k1) ++ post) as ->.
      { simpl. f_equal. by rewrite <- app_assoc. }
      apply (framed_core [] a (pre ++ c :: k1) (a :: pre ++ k2) z post); try done.
      simpl. f_equal. rewrite <- app_assoc. by f_equal.
Qed.

Lemma lstrip_app_spaces ws t : forallb is_space ws = true -> lstrip (ws ++ t) = lstrip t.
Proof.
  induction ws as [|a ws IH]; simpl; [done|].
  intros [-> H]%andb_true_iff. by apply IH.
Qed.

Lemma lstrip_spaces ws : forallb is_space ws = true -> lstrip ws = [].
Proof. intros H. rewrite <- (app_nil_r ws). by rewrite lstrip_app_spaces. Qed.

Lemma forallb_rev (P : char -> bool) l : forallb P (rev l) = forallb P l.
Proof.
  induction l as [|a l IH]; simpl; [done|].
  rewrite forallb_app, IH. simpl. rewrite andb_true_r. apply andb_comm.
Qed.

Lemma rstrip_app_spaces ws t : forallb is_space ws = true -> rstrip (t ++ ws) = rstrip t.
Proof.
  intros H. unfold rstrip. rewrite rev_app_distr, lstrip_app_spaces; [done|].
  by rewrite forallb_rev.
Qed.

Lemma rstrip_last t z : is_space z = false -> rstrip (t ++ [z]) = t ++ [z].
Proof.
  intros Hz. unfold rstrip. rewrite rev_app_distr. simpl. rewrite Hz.
  change (z :: rev t) with ([z] ++ rev t). by rewrite rev_app_distr, rev_involutive.
Qed.

Lemma strip_framed s core : framed s core -> strip s = core.
Proof.
  intros [ws Hws|pre c k1 k2 z post Hpre Hpost Hc Hz Hk]; unfold strip.
  - by rewrite lstrip_spaces.
  - rewrite lstrip_app_spaces by done. simpl. rewrite Hc.
    change (c :: k1 ++ post) with ((c :: k1) ++ post).
    rewrite rstrip_app_spaces by done. rewrite Hk. by apply rstrip_last.
Qed.

Lemma collapse_spaces ws : forall b,
  forallb is_space ws = true -> forallb is_space (collapse_from b ws) = true.
Proof.
  induction ws as [|a ws IH]; intros b; simpl; [done|].
  intros [Ha H]%andb_true_iff. rewrite Ha.
  destruct b; simpl; auto.
Qed.

Lemma collapse_app_spaces ws t : forall b,
  forallb is_space ws = true ->
  exists pre, forallb is_space pre = true
              /\ collapse_from b (ws ++ t) = pre ++ collapse_from (b || negb (Nat.eqb (length ws) 0)) t.
Proof.
  induction ws as [|a ws IH]; intros b; simpl.
  - intros _. exists []. by rewrite orb_false_r.
  - intros [Ha H]%andb_true_iff. rewrite Ha, orb_true_r.
    destruct (IH true H) as (pre & Hpre & ->). simpl.
    destruct b; [by exists pre|].
    exists (32%N :: pre). by split; [simpl; rewrite Hpre|].
Qed.

Lemma collapse_core_app u z post : forall b,
  is_space z = false ->
  collapse_from b (u ++ z :: post)
  = collapse_from b (u ++ [z]) ++ collapse_from false post.
Proof.
  induction u as [|a u IH]; intros b Hz; simpl.
  - by rewrite Hz.
  - destruct (is_space a); [destruct b|]; simpl; by rewrite IH.
Qed.

Lemma collapse_last u z : forall b,
  is_space z = false -> exists x, collapse_from b (u ++ [z]) = x ++ [z].
Proof.
  induction u as [|a u IH]; intros b Hz; simpl.
  - rewrite Hz. by exists [].
  - destruct (is_space a); [destruct b|].
    + apply IH, Hz.
    + destruct (IH true Hz) as [x ->]. by exists (32%N :: x).
    + destruct (IH false Hz) as [x ->]. by exists (a :: x).
Qed.

(** Trimming and collapsing may be done in either order. *)
Lemma strip_collapse s :
  strip (collapse_whitespace s) = collapse_whitespace (strip s).
Proof.
  destruct (framed_exists s) as [core Hf]. rewrite (strip_framed _ _ Hf).
  unfold collapse_whitespace.
  destruct Hf as [ws Hws|pre c k1 k2 z post Hpre Hpost Hc Hz Hk].
  - simpl. unfold strip. by rewrite lstrip_spaces by by apply collapse_spaces.
  - destruct (collapse_app_spaces pre ((c :: k1) ++ post) false Hpre)
      as (pre' & Hpre' & ->).
    assert (forall b, collapse_from b ((c :: k1) ++ post)
                      = collapse_from false (c :: k1) ++ collapse_from false post) as E.
    { intros b. rewrite Hk, <- app_assoc. simpl.
      rewrite collapse_core_app by done.
      f_equal. rewrite <- Hk. simpl. by rewrite Hc. }
    rewrite E. apply strip_framed.
    destruct (collapse_last k2 z false Hz) as [x Hx].
    rewrite <- Hk in Hx. revert Hx. simpl. rewrite Hc. intros Hx.
    apply (framed_core pre' c _ x z _); try done.
    by apply collapse_spaces.
Qed.

Lemma collapse_only_blanks s : forall b,
  Forall (fun c => is_space c = true -> c = 32%N) (collapse_from b s).
Proof.
  induction s as [|a s IH]; intros b; simpl; [constructor|].
  destruct (is_space a) eqn:Ha; [destruct b|]; try apply IH.
  - constructor; [done|apply IH].
  - constructor; [congruence|apply IH].
Qed.

Lemma Forall_strip (P : char -> Prop) s : Forall P s -> Forall P (strip s).
Proof.
  assert (forall t, Forall P t -> Forall P (lstrip t)) as Hl.
  { induction t as [|a t IH]; simpl; [done|].
    intros Ht. destruct (is_space a); [|done]. apply IH. by inversion Ht. }
  intros Hs. unfold strip, rstrip.
  apply Forall_rev, Hl, Forall_rev, Hl, Hs.
Qed.

Lemma name_items_spec c :
  (is_space c = true -> c = 32%N) ->
  set_matches false name_items c = is_name_char c.
Proof.
  intros Hc. unfold set_matches, name_items, is_name_char, is_letter. simpl.
  rewrite orb_false_r.
  assert (is_space c = (c =? 32)%N) as ->.
  { destruct (is_space c) eqn:E.
    - rewrite Hc by done. reflexivity.
    - symmetry. apply N.eqb_neq. intros ->. by vm_compute in E. }
  by rewrite !orb_assoc.
Qed.

Lemma clean_professor_name_spec name :
  clean_professor_name name
  = strip_other_chars (strip (collapse_whitespace (name_text name))).
Proof.
  destruct name as [[|c s]|]; try reflexivity.
  unfold clean_professor_name, name_text, default.
  rewrite re_sub_spaces, re_sub_not_name_char, strip_collapse.
  unfold strip_other_chars. apply filter_ext_in.
  intros a Ha. apply name_items_spec.
  pose proof (Forall_strip _ _ (collapse_only_blanks (c :: s) false)) as H.
  rewrite Forall_forall in H. apply H. apply list_elem_of_In.
  fold (collapse_whitespace (c :: s)). rewrite strip_collapse. exact Ha.
Qed.

Lemma strip_other_chars_name_chars s :
  Forall (fun c => is_name_char c = true) (strip_other_chars s).
Proof.
  apply Forall_forall. intros c Hc%list_elem_of_In.
  by apply filter_In in Hc as [_ Hc].
Qed.

(** C8. The cleaning step collapses every run of white space to one blank,
    trims the ends (in either order) and then drops every character other
    than letters, blank, comma, period, apostrophe and hyphen; the candidate
    is rejected at this step when the result is empty and goes on to the
    rating and link steps otherwise; "  John   Doe  " becomes "John Doe". *)
Theorem clean_professor_name_collapses_trims_strips (name : option str) :
  clean_professor_name name
    = strip_other_chars (strip (collapse_whitespace (name_text name)))
  /\ clean_professor_name name
     = strip_other_chars (collapse_whitespace (strip (name_text name)))
  /\ Forall (fun c => is_name_char c = true) (clean_professor_name name)
  /\ (forall rating link,
        create_professor_entry name rating link
        = match clean_professor_name name with
          | [] => Ok None
          | clean_name => after_name_step clean_name rating link
          end)
  /\ clean_professor_name (Some (lit "  John   Doe  ")) = lit "John Doe".
Proof.
  split; [|split; [|split; [|split]]].
  - apply clean_professor_name_spec.
  - rewrite clean_professor_name_spec. by rewrite strip_collapse.
  - rewrite clean_professor_name_spec. apply strip_other_chars_name_chars.
  - intros rating link. unfold create_professor_entry, after_name_step.
    by destruct (clean_professor_name name).
  - by vm_compute.
Qed.

(** ** The rating step converts the whole text *)

Lemma float_char_ne b c : is_float_char b = false -> is_float_char c = true -> b <> c.
Proof. intros Hb Hc ->. congruence. Qed.

Lemma float_char_digit b : is_float_char b = false -> is_ascii_digit b = false.
Proof. unfold is_float_char. by intros [[? _]%orb_false_iff _]%orb_false_iff. Qed.

Lemma float_char_space b : is_float_char b = false -> is_c_space b = false.
Proof. unfold is_float_char. by intros [[_ ?]%orb_false_iff _]%orb_false_iff. Qed.

Lemma passes_on_refl s : passes_on s s.
Proof. by intros b _ Hb. Qed.

Lemma passes_on_trans s t u : passes_on s t -> passes_on t u -> passes_on s u.
Proof. intros Hst Htu b Hb Hs. by apply Htu, Hst. Qed.

Lemma passes_on_cons c s : is_float_char c = true -> passes_on (c :: s) s.
Proof.
  intros Hc b Hb [->|Hs]%elem_of_cons; [congruence|done].
Qed.

Lemma after_passes c s s' :
  is_float_char c = true -> after c s = Some s' -> passes_on s s'.
Proof.
  intros Hc. unfold after. destruct s as [|x s]; [done|].
  destruct (N.eqb_spec x c) as [->|]; [|done]. intros [= <-].
  by apply passes_on_cons.
Qed.

Lemma span_digits_passes s : passes_on s (span_digits s).2.
Proof.
  induction s as [|c s IH]; [apply passes_on_refl|]. simpl.
  destruct (is_ascii_digit c) eqn:Hc; [|apply passes_on_refl].
  destruct (span_digits s) as [ds rest]. simpl in *.
  intros b Hb [->|Hs]%elem_of_cons; [|by apply IH].
  apply float_char_digit in Hb. congruence.
Qed.

Lemma take_sign_passes s : passes_on s (take_sign s).2.
Proof.
  unfold take_sign.
  destruct (after 45 s) as [s'|] eqn:E1; [by eapply after_passes; [|exact E1]|].
  destruct (after 43 s) as [s'|] eqn:E2; [by eapply after_passes; [|exact E2]|].
  apply passes_on_refl.
Qed.

Lemma take_exponent_passes s : passes_on s (take_exponent s).2.
Proof.
  unfold take_exponent. destruct s as [|c s1]; [apply passes_on_refl|].
  destruct ((c =? 101) || (c =? 69))%N eqn:Hc; [|apply passes_on_refl].
  pose proof (take_sign_passes s1) as H1.
  destruct (take_sign s1) as [neg s2]. simpl in H1.
  pose proof (span_digits_passes s2) as H2.
  destruct (span_digits s2) as [[|d ds] rest]; [apply passes_on_refl|].
  simpl in *. eapply passes_on_trans; [|eapply passes_on_trans; [exact H1|exact H2]].
  apply passes_on_cons.
  apply orb_true_iff in Hc as [->%N.eqb_eq| ->%N.eqb_eq]; reflexivity.
Qed.

Lemma strtod_passes u x rest : strtod u = Some (x, rest) -> passes_on u rest.
Proof.
  unfold strtod.
  pose proof (take_sign_passes u) as H1.
  destruct (take_sign u) as [neg s1]. simpl in H1.
  pose proof (span_digits_passes s1) as H2.
  destruct (span_digits s1) as [ip s2]. simpl in H2.
  assert (passes_on s2
            (match after 46 s2 with
             | Some s2' => span_digits s2'
             | None => ([], s2)
             end).2) as H3.
  { destruct (after 46 s2) as [s2'|] eqn:E; [|apply passes_on_refl].
    eapply passes_on_trans; [by eapply after_passes; [|exact E]|].
    apply span_digits_passes. }
  destruct (match after 46 s2 with
            | Some s2' => span_digits s2'
            | None => ([], s2)
            end) as [fp s3]. simpl in H3.
  pose proof (take_exponent_passes s3) as H4.
  destruct (take_exponent s3) as [ex s4]. simpl in H4.
  assert (passes_on u s4) as H.
  { eapply passes_on_trans; [exact H1|]. eapply passes_on_trans; [exact H2|].
    eapply passes_on_trans; [exact H3|exact H4]. }
  destruct ip, fp; try done; by intros [= _ <-].
Qed.

Lemma to_lower_letter b :
  In (to_lower b) [105; 110; 102; 116; 121; 97]%N -> is_float_char b = true.
Proof.
  unfold to_lower.
  intros H.
  assert (In b [105; 110; 102; 116; 121; 97; 73; 78; 70; 84; 89; 65]%N) as Hb.
  { destruct ((65 <=? b) && (b <=? 90))%N eqn:E; simpl in *; lia. }
  simpl in Hb.
  repeat (destruct Hb as [<-|Hb]; [reflexivity|]). done.
Qed.

Lemma startswith_lower_passes pat : forall s,
  Forall (fun a => In a [105; 110; 102; 116; 121; 97]%N) pat ->
  startswith (List.map to_lower s) pat = true ->
  passes_on s (skipn (length pat) s).
Proof.
  induction pat as [|a pat IH]; intros s Hpat; [intros _; apply passes_on_refl|].
  destruct s as [|c s]; [done|]. cbn [List.map startswith length skipn].
  intros [Ha%N.eqb_eq Hs]%andb_true_iff.
  inversion Hpat as [|? ? Hin Hpat']; subst.
  eapply passes_on_trans; [|by apply IH].
  apply passes_on_cons. by apply to_lower_letter.
Qed.

Lemma parse_inf_or_nan_passes u x rest :
  parse_inf_or_nan u = Some (x, rest) -> passes_on u rest.
Proof.
  unfold parse_inf_or_nan.
  pose proof (take_sign_passes u) as H1.
  destruct (take_sign u) as [neg s1]. simpl in H1.
  destruct (startswith (List.map to_lower s1) (lit "inf")) eqn:E1.
  - assert (passes_on s1 (skipn 3 s1)) as H3.
    { apply (startswith_lower_passes (lit "inf")); [|done].
      repeat constructor; simpl; tauto. }
    destruct (startswith (skipn 3 (List.map to_lower s1)) (lit "inity")) eqn:E2.
    + intros [= _ <-]. eapply passes_on_trans; [exact H1|].
      eapply passes_on_trans; [exact H3|].
      replace (skipn 8 s1) with (skipn 5 (skipn 3 s1)) by by rewrite skipn_skipn.
      apply (startswith_lower_passes (lit "inity")).
      * repeat constructor; simpl; tauto.
      * by rewrite <- skipn_map.
    + intros [= _ <-]. by eapply passes_on_trans.
  - destruct (startswith (List.map to_lower s1) (lit "nan")) eqn:E2; [|done].
    intros [= _ <-]. eapply passes_on_trans; [exact H1|].
    apply (startswith_lower_passes (lit "nan")); [|done].
    repeat constructor; simpl; tauto.
Qed.

Lemma to_ascii_keeps t :
  (exists c, c ∈ t /\ (c < 127)%N /\ is_float_char c = false) ->
  exists b, b ∈ to_ascii t /\ is_float_char b = false.
Proof.
  intros (c & Hin & Hc & Hbad). induction t as [|x t IH]; [by apply elem_of_nil in Hin|].
  simpl. destruct (N.ltb_spec x 127) as [Hx|Hx].
  - apply elem_of_cons in Hin as [<-|Hin].
    + exists c. split; [by left|done].
    + destruct (IH Hin) as (b & Hb & Hbb). exists b. split; [by right|done].
  - apply elem_of_cons in Hin as [->|Hin]; [lia|].
    destruct (IH Hin) as (b & Hb & Hbb).
    destruct (is_space x).
    + exists b. split; [by right|done].
    + destruct (to_decimal x).
      * exists b. split; [by right|done].
      * exists 63%N. split; [by left|reflexivity].
Qed.

Lemma c_lstrip_passes s : passes_on s (c_lstrip s).
Proof.
  induction s as [|c s IH]; [apply passes_on_refl|]. simpl.
  destruct (is_c_space c) eqn:Hc; [|apply passes_on_refl].
  intros b Hb [->|Hs]%elem_of_cons; [|by apply IH].
  apply float_char_space in Hb. congruence.
Qed.

Lemma c_strip_passes s : passes_on s (c_strip s).
Proof.
  unfold c_strip. intros b Hb Hs.
  apply list_elem_of_In, (proj1 (in_rev _ _)), list_elem_of_In.
  apply c_lstrip_passes; [done|].
  apply list_elem_of_In, (proj1 (in_rev _ _)), list_elem_of_In.
  by apply c_lstrip_passes.
Qed.

Lemma drop_underscores_passes s : forall prev u,
  drop_underscores prev s = Some u -> passes_on s u.
Proof.
  induction s as [|c s IH]; intros prev u; simpl.
  - destruct (prev =? 95)%N; [done|]. intros [= <-]. apply passes_on_refl.
  - destruct (N.eqb_spec c 95) as [->|Hc].
    + destruct (is_ascii_digit prev); [|done]. intros Hu.
      eapply passes_on_trans; [|by eapply IH]. by apply passes_on_cons.
    + destruct ((prev =? 95)%N && negb (is_ascii_digit c)); [done|].
      destruct (drop_underscores c s) as [t|] eqn:E; [|done].
      intros [= <-] b Hb [->|Hs]%elem_of_cons; [by left|].
      right. by eapply IH.
Qed.

(** A text with an ASCII character that no number has does not convert. *)
Lemma of_str_other_char t :
  (exists c, c ∈ t /\ (c < 127)%N /\ is_float_char c = false) ->
  Float.of_str t = Raise ValueError.
Proof.
  intros (b & Hb & Hbad)%to_ascii_keeps. unfold Float.of_str.
  apply c_strip_passes in Hb; [|done].
  destruct (drop_underscores 0 (c_strip (to_ascii t))) as [u|] eqn:Hu; [|done].
  apply (drop_underscores_passes _ _ _ Hu) in Hb; [|done].
  destruct (parse_inf_or_nan u) as [[x [|? ?]]|] eqn:E; [|done|].
  - apply (parse_inf_or_nan_passes _ _ _ E) in Hb; [|done].
    by apply elem_of_nil in Hb.
  - destruct (strtod u) as [[x [|? ?]]|] eqn:E'; [|done|done].
    apply (strtod_passes _ _ _ E') in Hb; [|done]. by apply elem_of_nil in Hb.
Qed.

Lemma of_str_raises s e : Float.of_str s = Raise e -> e = ValueError.
Proof.
  unfold Float.of_str.
  destruct (drop_underscores _ _) as [u|]; [|by intros [= <-]].
  destruct (parse_inf_or_nan u) as [[y [|? ?]]|]; [done|by intros [= <-]|].
  destruct (strtod u) as [[y [|? ?]]|]; [done|by intros [= <-]|by intros [= <-]].
Qed.

(** The text the spec gives is turned down, and the candidate with it. *)
Lemma validate_rating_does_not_extract :
  validate_rating (PStr (lit "3.67 (120 reviews)")) = Ok None
  /\ create_professor_entry (Some (lit "Smith, John"))
       (PStr (lit "3.67 (120 reviews)")) link_ab12 = Ok None.
Proof. split; by vm_compute. Qed.

(** C1 (amended). The rating step converts the whole text with [float]; it
    extracts no number from a longer text. What [float] does not convert is
    rejected, [float] raising nothing but [ValueError]; so is every text
    with an ASCII character that no number has, whatever number it begins
    with, "3.67 (120 reviews)" among them; a value outside the range from 0.0
    to 4.0 is rejected, and an accepted value is rounded to 2 decimals:
    "3.67" yields 3.67. *)
Theorem validate_rating_rejects_text_around_number (ratingText : str) :
  validate_rating (PStr ratingText)
  = Ok (match Float.of_str ratingText with
        | Ok x =>
            if Float.le ScraperConfig.MIN_RATING x
               && Float.le x ScraperConfig.MAX_RATING
            then Some (round_ndigits x 2) else None
        | Raise _ => None
        end)
  /\ ((exists c, c ∈ ratingText /\ (c < 127)%N /\ is_float_char c = false) ->
      validate_rating (PStr ratingText) = Ok None)
  /\ (forall number rest,
        validate_rating (PStr (number ++ lit " (" ++ rest)) = Ok None)
  /\ validate_rating (PStr (lit "3.67")) = Ok (Some f3_67)
  /\ validate_rating (PStr (lit " 3.67 ")) = Ok (Some f3_67)
  /\ validate_rating (PStr (lit "4.01")) = Ok None
  /\ validate_rating (PStr (lit "3.67 (120 reviews)")) = Ok None.
Proof.
  assert (forall t, validate_rating (PStr t)
            = Ok (match Float.of_str t with
                  | Ok x =>
                      if Float.le ScraperConfig.MIN_RATING x
                         && Float.le x ScraperConfig.MAX_RATING
                      then Some (round_ndigits x 2) else None
                  | Raise _ => None
                  end)) as Heq.
  { intros t. unfold validate_rating, try_except. simpl.
    destruct (Float.of_str t) as [x|e] eqn:Hx; simpl.
    - by destruct (_ && _).
    - by apply of_str_raises in Hx as ->. }
  assert (forall t, (exists c, c ∈ t /\ (c < 127)%N /\ is_float_char c = false) ->
            validate_rating (PStr t) = Ok None) as Hother.
  { intros t Ht. by rewrite Heq, (of_str_other_char t Ht). }
  split; [apply Heq|]. split; [apply Hother|]. split; [|repeat split; by vm_compute].
  intros number rest. apply Hother. exists 40%N. split; [|done].
  apply elem_of_app. right. right. by left.
Qed.

(** The helper of [utils.py], which nothing calls, finds the number. *)
Lemma extract_rating_from_text_finds_number :
  extract_rating_from_text (lit "3.67 (120 reviews)") = Some f3_67.
Proof. by vm_compute. Qed.

(** ** Validating twice *)

(** C7. Validation is not a fixed point on its own results: the name
    "John 1 Doe" is cleaned to a name with two blanks, which a second
    validation changes; "A 1" is cleaned to "A ", which a second validation
    rejects. *)
Theorem create_professor_entry_not_idempotent :
  (create_professor_entry (Some (lit "John 1 Doe")) (PStr (lit "3.5")) link_ab12
     = Ok (Some (professor_entry (lit "John  Doe") f3_5 link_ab12))
   /\ create_professor_entry (Some (lit "John  Doe")) (PFloat f3_5) link_ab12
      = Ok (Some (professor_entry (lit "John Doe") f3_5 link_ab12)))
  /\ (create_professor_entry (Some (lit "A 1")) (PStr (lit "3.5")) link_ab12
        = Ok (Some (professor_entry (lit "A ") f3_5 link_ab12))
      /\ create_professor_entry (Some (lit "A ")) (PFloat f3_5) link_ab12
         = Ok None).
Proof. repeat split; by vm_compute. Qed.

(** ** The accumulator is keyed by the whole card *)




(** ** The record store *)

Lemma validate_professors_list_valid professors :
  validate_professors_list professors = Ok (valid PROFESSORS_LIST_SCHEMA professors).
Proof.
  unfold validate_professors_list, validate.
  by destruct (valid PROFESSORS_LIST_SCHEMA professors).
Qed.

Lemma validate_professor_data_valid d :
  validate_professor_data (PDict d) = Ok (valid PROFESSOR_SCHEMA (PDict d)).
Proof.
  unfold validate_professor_data, validate.
  by destruct (valid PROFESSOR_SCHEMA (PDict d)).
Qed.

Lemma valid_list_schema l :
  valid PROFESSORS_LIST_SCHEMA (PList l)
  = forallb (valid PROFESSOR_SCHEMA) l && (1 <=? length l)%nat.
Proof.
  unfold PROFESSORS_LIST_SCHEMA.
  cbn [valid is_type]. by rewrite !andb_true_l, andb_true_r.
Qed.

Lemma save_professors_json_spec fault professors path fs :
  save_professors_json fault professors path fs
  = if valid PROFESSORS_LIST_SCHEMA professors
    then match write_file fault path (dumps professors) fs with
         | (Ok _, fs') => (true, fs')
         | (Raise _, fs') => (false, fs')
         end
    else (false, fs).
Proof.
  unfold save_professors_json. rewrite validate_professors_list_valid.
  by destruct (valid PROFESSORS_LIST_SCHEMA professors).
Qed.

(** A write that fails after the file was opened leaves the artifact
    changed: the old text is gone although [save] reports failure. *)
Lemma save_write_failure_truncates_artifact :
  let '(ok, fs') :=
    save_professors_json (WriteFailsAfter 0) (PList [smith]) artifact_path old_fs in
  ok = false
  /\ old_fs !! artifact_path = Some (lit "old")
  /\ fs' !! artifact_path = Some []
  /\ fs' <> old_fs.
Proof.
  rewrite save_professors_json_spec.
  assert (valid PROFESSORS_LIST_SCHEMA (PList [smith]) = true) as -> by by vm_compute.
  cbn [write_file take]. unfold old_fs.
  split; [done|]. split; [by rewrite lookup_insert_eq|].
  split; [by rewrite lookup_insert_eq|].
  intros H. apply (f_equal (fun m => m !! artifact_path)) in H.
  by rewrite !lookup_insert_eq in H.
Qed.

(** C4 (amended). [save] checks the whole sequence against the record schema
    and the non-empty constraint; when the check fails, or the file cannot
    be opened, it reports failure and leaves the file system as it was; when
    a write fails after the file was opened it still reports failure, and
    the artifact then holds the part written so far; an empty sequence is
    rejected by the check, with the artifact untouched. *)
Theorem save_failure_modes
    (fault : write_fault) (professors : pyval) (path : str) (fs : filesystem) :
  (forall l, valid PROFESSORS_LIST_SCHEMA (PList l)
             = forallb (valid PROFESSOR_SCHEMA) l && (1 <=? length l)%nat)
  /\ validate_professors_list professors
     = Ok (valid PROFESSORS_LIST_SCHEMA professors)
  /\ (valid PROFESSORS_LIST_SCHEMA professors = false \/ fault = OpenFails ->
      save_professors_json fault professors path fs = (false, fs))
  /\ (forall n, valid PROFESSORS_LIST_SCHEMA professors = true ->
        save_professors_json (WriteFailsAfter n) professors path fs
        = (false, <[path := take n (dumps professors)]> fs))
  /\ ((save_professors_json fault professors path fs).1 = true ->
      valid PROFESSORS_LIST_SCHEMA professors = true /\ fault = NoFault
      /\ (save_professors_json fault professors path fs).2
         = <[path := dumps professors]> fs)
  /\ valid PROFESSORS_LIST_SCHEMA (PList []) = false
  /\ save_professors_json fault (PList []) path fs = (false, fs).
Proof.
  split; [apply valid_list_schema|].
  split; [apply validate_professors_list_valid|].
  split; [|split; [|split; [|split]]].
  - rewrite save_professors_json_spec. intros [->| ->]; [done|].
    by destruct (valid _ _).
  - intros n Hv. by rewrite save_professors_json_spec, Hv.
  - rewrite save_professors_json_spec.
    destruct (valid PROFESSORS_LIST_SCHEMA professors); [|done].
    destruct fault; simpl; try done.
    destruct (forallb _ _); simpl; [done|done].
  - reflexivity.
  - by rewrite save_professors_json_spec.
Qed.

(** ** Decimal digits *)

Lemma digit_char_spec d :
  0 <= d < 10 ->
  is_ascii_digit (digit_char d) = true /\ Z.of_N (digit_char d) - 48 = d.
Proof.
  intros Hd. unfold digit_char, is_ascii_digit.
  split; [|lia].
  apply andb_true_iff. split; apply N.leb_le; lia.
Qed.

Lemma digits_from_app a ds1 ds2 :
  digits_from a (ds1 ++ ds2) = digits_from (digits_from a ds1) ds2.
Proof. unfold digits_from. apply fold_left_app. Qed.

Lemma digits_fuel_S fuel n acc :
  digits_fuel (S fuel) n acc
  = if n <? 10 then digit_char n :: acc
    else digits_fuel fuel (n / 10) (digit_char (n mod 10) :: acc).
Proof. reflexivity. Qed.

Lemma digits_fuel_spec fuel : forall n acc,
  0 <= n < 10 ^ Z.of_nat (S fuel) ->
  exists d ds,
    digits_fuel (S fuel) n acc = d :: ds ++ acc
    /\ forallb is_ascii_digit (d :: ds) = true
    /\ (forall a, digits_from a (d :: ds) = a * 10 ^ Z.of_nat (S (length ds)) + n)
    /\ (0 < n -> d <> 48%N).
Proof.
  induction fuel as [|fuel IH]; intros n acc Hn.
  - change (10 ^ Z.of_nat 1) with 10 in Hn.
    destruct (digit_char_spec n Hn) as [Hd Hv].
    exists (digit_char n), []. rewrite digits_fuel_S.
    rewrite (proj2 (Z.ltb_lt n 10)) by lia.
    repeat split.
    + simpl. by rewrite Hd.
    + intros a. unfold digits_from. simpl. lia.
    + intros Hpos Heq. rewrite Heq in Hv. simpl in Hv. lia.
  - rewrite digits_fuel_S. destruct (Z.ltb_spec n 10) as [Hlt|Hge].
    + destruct (digit_char_spec n) as [Hd Hv]; [lia|].
      exists (digit_char n), []. repeat split.
      * simpl. by rewrite Hd.
      * intros a. unfold digits_from. simpl. lia.
      * intros Hpos Heq. rewrite Heq in Hv. simpl in Hv. lia.
    + assert (0 <= n / 10 < 10 ^ Z.of_nat (S fuel)) as Hq.
      { split; [apply Z.div_pos; lia|].
        apply Z.div_lt_upper_bound; [lia|].
        rewrite <- Z.pow_succ_r by lia. rewrite <- Nat2Z.inj_succ. lia. }
      destruct (IH (n / 10) (digit_char (n mod 10) :: acc) Hq)
        as (d & ds & -> & Hds & Hval & Hnz).
      pose proof (Z.mod_pos_bound n 10 ltac:(lia)) as Hm.
      destruct (digit_char_spec (n mod 10) Hm) as [Hd Hv].
      exists d, (ds ++ [digit_char (n mod 10)]). repeat split.
      * by rewrite <- app_assoc.
      * change (d :: ds ++ [digit_char (n mod 10)])
          with ((d :: ds) ++ [digit_char (n mod 10)]).
        rewrite forallb_app, Hds. simpl. by rewrite Hd.
      * intros a.
        change (d :: ds ++ [digit_char (n mod 10)])
          with ((d :: ds) ++ [digit_char (n mod 10)]).
        rewrite digits_from_app, Hval. unfold digits_from at 1. simpl.
        rewrite Hv, length_app. simpl.
        replace (Z.of_nat (S (length ds + 1))) with (Z.succ (Z.of_nat (S (length ds)))) by lia.
        rewrite Z.pow_succ_r by lia.
        pose proof (Z.div_mod n 10 ltac:(lia)). lia.
      * intros _. apply Hnz. apply Z.div_str_pos. lia.
Qed.

Lemma nat_repr_spec n :
  0 <= n ->
  exists d ds,
    nat_repr n = d :: ds
    /\ forallb is_ascii_digit (d :: ds) = true
    /\ digits_value (d :: ds) = n
    /\ (0 < n -> d <> 48%N).
Proof.
  intros Hn. unfold nat_repr.
  destruct (digits_fuel_spec (Z.to_nat (Z.log2 n)) n []) as (d & ds & E & Hds & Hval & Hnz).
  { split; [done|]. rewrite Nat2Z.inj_succ, Z2Nat.id by apply Z.log2_nonneg.
    destruct (Z.eq_dec n 0) as [->|Hne]; [done|].
    apply Z.lt_le_trans with (2 ^ Z.succ (Z.log2 n)).
    - apply Z.log2_spec. lia.
    - apply Z.pow_le_mono_l. lia. }
  exists d, ds. rewrite E, app_nil_r. repeat split; try done.
  change (digits_value (d :: ds)) with (digits_from 0 (d :: ds)).
  rewrite Hval. lia.
Qed.

Lemma span_digits_app ds rest :
  forallb is_ascii_digit ds = true -> no_digit_next rest ->
  span_digits (ds ++ rest) = (ds, rest).
Proof.
  intros Hds Hrest. induction ds as [|d ds IH].
  - destruct rest as [|c rest]; [done|]. simpl in Hrest.
    cbn [app span_digits]. by rewrite Hrest.
  - simpl in Hds. apply andb_true_iff in Hds as [Hd Hds].
    cbn [app span_digits]. by rewrite Hd, IH.
Qed.

(** ** Rounding a value that is a double *)

Lemma digits2_pos_size m : digits2_pos m = Pos.size m.
Proof. induction m as [m IH|m IH|]; simpl; by rewrite ?IH. Qed.

Lemma digits2_pos_log2 m : Z.pos (digits2_pos m) = Z.log2 (Z.pos m) + 1.
Proof.
  rewrite digits2_pos_size. destruct m as [m|m|]; simpl; lia.
Qed.

Lemma bounded_canonical m e :
  bounded prec emax m e = true ->
  e = Z.max (Z.log2 (Z.pos m) - 52 + e) (-1074) /\ e <= 971.
Proof.
  unfold bounded, canonical_mantissa, fexp, SpecFloat.emin, prec, emax.
  intros [Hc He]%andb_true_iff. apply Z.eqb_eq in Hc. apply Z.leb_le in He.
  rewrite digits2_pos_log2 in Hc. lia.
Qed.

Lemma log2_window a b n :
  0 < a -> 0 < b -> n = a * b ->
  Z.log2 a + Z.log2 b <= Z.log2 n <= Z.log2 a + Z.log2 b + 1.
Proof.
  intros Ha Hb ->. split.
  - by apply Z.log2_mul_below.
  - apply Z.log2_mul_above; lia.
Qed.

Lemma lg_exact M e n d :
  0 < M -> 0 < d -> 0 < n -> is_ratio n d M e ->
  (if (if 0 <=? Z.log2 n - Z.log2 d
       then d * 2 ^ (Z.log2 n - Z.log2 d) <=? n
       else d <=? n * 2 ^ (- (Z.log2 n - Z.log2 d)))
   then Z.log2 n - Z.log2 d else Z.log2 n - Z.log2 d - 1) = Z.log2 M + e.
Proof.
  intros HM Hd Hn Hr. unfold is_ratio in Hr.
  pose proof (Z.log2_nonneg M) as HlM.
  destruct (Z.leb_spec 0 e) as [He|He].
  - (* n = M * 2^e * d *)
    assert (Z.log2 n = e + Z.log2 (M * d)) as Ha.
    { rewrite Hr. replace (M * 2 ^ e * d) with (M * d * 2 ^ e) by ring.
      apply Z.log2_mul_pow2; lia. }
    pose proof (log2_window M d (M * d) HM Hd eq_refl) as Hw.
    assert (Z.log2 (M * 2 ^ e) = e + Z.log2 M) as Ht by (apply Z.log2_mul_pow2; lia).
    assert (0 < M * 2 ^ e) as Hpos by (apply Z.mul_pos_pos; [lia|apply Z.pow_pos_nonneg; lia]).
    set (l := Z.log2 n - Z.log2 d).
    assert (0 <= l) as Hl by lia.
    rewrite (proj2 (Z.leb_le 0 l)) by done.
    pose proof (Z.log2_le_pow2 (M * 2 ^ e) l Hpos) as Hle.
    destruct (Z.leb_spec (d * 2 ^ l) n) as [H|H].
    + assert (2 ^ l <= M * 2 ^ e) as H' by (rewrite Hr in H; nia).
      apply Hle in H'. lia.
    + assert (~ 2 ^ l <= M * 2 ^ e) as H' by (rewrite Hr in H; nia).
      rewrite Hle in H'. lia.
  - (* n * 2^k = M * d *)
    set (k := - e) in *. assert (0 < k) as Hk by lia.
    assert (Z.log2 (n * 2 ^ k) = k + Z.log2 n) as Ha by (apply Z.log2_mul_pow2; lia).
    pose proof (log2_window M d (n * 2 ^ k) HM Hd Hr) as Hw.
    assert (0 < 2 ^ k) as H2k by (apply Z.pow_pos_nonneg; lia).
    set (l := Z.log2 n - Z.log2 d).
    destruct (Z.leb_spec 0 l) as [Hl|Hl].
    + pose proof (Z.log2_le_pow2 M (l + k) HM) as Hle.
      rewrite Z.pow_add_r in Hle by lia.
      destruct (Z.leb_spec (d * 2 ^ l) n) as [H|H].
      * assert (2 ^ l * 2 ^ k <= M) as H' by nia.
        apply Hle in H'. lia.
      * assert (~ 2 ^ l * 2 ^ k <= M) as H' by nia.
        rewrite Hle in H'. lia.
    + assert (0 < 2 ^ (- l)) as H2l by (apply Z.pow_pos_nonneg; lia).
      assert (Z.log2 (M * 2 ^ (- l)) = - l + Z.log2 M) as Ht
          by (apply Z.log2_mul_pow2; lia).
      pose proof (Z.log2_le_pow2 (M * 2 ^ (- l)) k ltac:(nia)) as Hle.
      destruct (Z.leb_spec d (n * 2 ^ (- l))) as [H|H].
      * assert (2 ^ k <= M * 2 ^ (- l)) as H' by nia.
        apply Hle in H'. lia.
      * assert (~ 2 ^ k <= M * 2 ^ (- l)) as H' by nia.
        rewrite Hle in H'. lia.
Qed.

Lemma round_ratio_exact s m e n d :
  bounded prec emax m e = true -> 0 < d -> is_ratio n d (Z.pos m) e ->
  round_ratio s n d = S754_finite s m e.
Proof.
  intros Hb Hd Hr. destruct (bounded_canonical m e Hb) as [Hc He].
  assert (0 < n) as Hn.
  { unfold is_ratio in Hr. destruct (Z.leb_spec 0 e).
    - rewrite Hr. pose proof (Z.pow_pos_nonneg 2 e). nia.
    - pose proof (Z.pow_pos_nonneg 2 (- e)). nia. }
  assert (Z.pos m < 2 ^ 53) as Hm.
  { apply Z.log2_lt_pow2; lia. }
  unfold round_ratio. cbv zeta.
  rewrite (proj2 (Z.leb_gt n 0)) by lia.
  rewrite (lg_exact (Z.pos m) e n d) by (done || lia).
  replace (Z.max (Z.log2 (Z.pos m) + e - 52) (-1074)) with e by lia.
  unfold is_ratio in Hr.
  assert ((if 0 <=? e then n else n * 2 ^ (- e))
          = Z.pos m * (if 0 <=? e then d * 2 ^ e else d)) as Hnum.
  { destruct (0 <=? e); lia. }
  assert (0 < (if 0 <=? e then d * 2 ^ e else d)) as Hden.
  { destruct (Z.leb_spec 0 e); [|done]. pose proof (Z.pow_pos_nonneg 2 e). nia. }
  rewrite Hnum.
  rewrite Z.div_mul, Z.mod_mul by lia.
  rewrite (proj2 (Z.compare_lt_iff _ _)) by lia.
  rewrite (proj2 (Z.eqb_neq (Z.pos m) (2 ^ 53))) by lia.
  rewrite (proj2 (Z.eqb_neq (Z.pos m) 0)) by lia.
  rewrite (proj2 (Z.ltb_ge 971 e)) by lia.
  done.
Qed.

(** ** Reading numbers *)

Lemma after_eq c s : after c (c :: s) = Some s.
Proof. unfold after. by rewrite N.eqb_refl. Qed.

Lemma after_ne c x s : x <> c -> after c (x :: s) = None.
Proof. intros H. unfold after. by rewrite (proj2 (N.eqb_neq x c)). Qed.

Lemma after_digit c x s :
  is_ascii_digit x = true -> is_ascii_digit c = false -> after c (x :: s) = None.
Proof. intros Hx Hc. apply after_ne. congruence. Qed.

Lemma int_part_cons ip :
  int_part ip -> exists d ds, ip = d :: ds /\ is_ascii_digit d = true /\ digit_run ds
                              /\ (d = 48%N -> ds = []).
Proof.
  intros [|d ds Hd Hne Hds].
  - by exists 48%N, [].
  - by exists d, ds.
Qed.

Lemma frac_exp_rest_no_digit fr ex v rest :
  frac_part fr -> exp_part ex v -> ends_number rest ->
  no_digit_next (fr ++ ex ++ rest).
Proof.
  intros [|f fs Hf] [|e es He|e es He] Hrest; simpl; try done.
  destruct rest as [|c rest]; [done|]. apply Hrest.
Qed.

Lemma exp_rest_no_point ex v rest :
  exp_part ex v -> ends_number rest -> after 46 (ex ++ rest) = None.
Proof.
  intros [|e es He|e es He] Hrest; simpl; try done.
  destruct rest as [|c rest]; [done|]. apply after_ne. apply Hrest.
Qed.

Lemma ends_number_no_digit rest : ends_number rest -> no_digit_next rest.
Proof. destruct rest as [|c rest]; [done|]. by intros [? _]. Qed.

Lemma match_number_parts s ip fr ex v rest :
  int_part ip -> frac_part fr -> exp_part ex v -> ends_number rest ->
  match_number (sign_text s ++ ip ++ fr ++ ex ++ rest)
  = Some (sign_text s ++ ip, fr, ex, rest).
Proof.
  intros Hip Hfr Hex Hrest.
  destruct (int_part_cons ip Hip) as (d & ds & -> & Hd & Hds & Hz).
  unfold match_number.
  assert (match after 45 (sign_text s ++ (d :: ds) ++ fr ++ ex ++ rest) with
          | Some s' => ([45%N], s')
          | None => ([], sign_text s ++ (d :: ds) ++ fr ++ ex ++ rest)
          end = (sign_text s, d :: ds ++ fr ++ ex ++ rest)) as ->.
  { destruct s; cbn [sign_text app]; [by rewrite after_eq|].
    by rewrite after_digit. }
  rewrite Hd.
  assert ((if (d =? 48)%N then ([], ds ++ fr ++ ex ++ rest)
           else span_digits (ds ++ fr ++ ex ++ rest))
          = (ds, fr ++ ex ++ rest)) as ->.
  { destruct (N.eqb_spec d 48) as [->|_]; [by rewrite Hz|].
    apply span_digits_app; [done|]. by eapply frac_exp_rest_no_digit. }
  assert (match after 46 (fr ++ ex ++ rest) with
          | Some s3' =>
              match span_digits s3' with
              | ([], _) => ([], fr ++ ex ++ rest)
              | (fs, rest0) => (46%N :: fs, rest0)
              end
          | None => ([], fr ++ ex ++ rest)
          end = (fr, ex ++ rest)) as ->.
  { destruct Hfr as [|f fs Hf].
    - simpl app. by erewrite exp_rest_no_point.
    - simpl app. rewrite after_eq.
      change (f :: fs ++ ex ++ rest) with ((f :: fs) ++ ex ++ rest).
      rewrite span_digits_app; [done|done|].
      eapply (frac_exp_rest_no_digit [] ex v rest); [constructor|done|done]. }
  pose proof (ends_number_no_digit rest Hrest) as Hnd.
  destruct Hex as [|e es He|e es He].
  - simpl app. destruct rest as [|c rest]; [done|].
    destruct Hrest as (_ & _ & H1 & H2).
    rewrite (proj2 (N.eqb_neq c 101)), (proj2 (N.eqb_neq c 69)) by done. done.
  - simpl app. cbv iota.
    change ((101 =? 101)%N || (101 =? 69)%N) with true. cbv iota.
    rewrite (after_ne 45 43) by done. rewrite after_eq.
    change (e :: es ++ rest) with ((e :: es) ++ rest).
    rewrite span_digits_app by done. done.
  - simpl app. cbv iota.
    change ((101 =? 101)%N || (101 =? 69)%N) with true. cbv iota.
    rewrite after_eq.
    change (e :: es ++ rest) with ((e :: es) ++ rest).
    rewrite span_digits_app by done. done.
Qed.

(** ** The shape of [repr] of a float *)

Lemma digit_run_app a b : digit_run (a ++ b) <-> digit_run a /\ digit_run b.
Proof. unfold digit_run. by rewrite forallb_app, andb_true_iff. Qed.

Lemma digit_run_cons d ds : digit_run (d :: ds) <-> is_ascii_digit d = true /\ digit_run ds.
Proof. unfold digit_run. simpl. by rewrite andb_true_iff. Qed.

Lemma digit_run_zeros k : digit_run (repeat 48%N k).
Proof. induction k as [|k IH]; [done|]. apply digit_run_cons. by split. Qed.

Lemma digit_run_take_drop k ds :
  digit_run ds -> digit_run (take k ds) /\ digit_run (drop k ds).
Proof. intros H. apply digit_run_app. by rewrite take_drop. Qed.

Lemma nat_repr_digits n :
  0 <= n ->
  exists d ds, nat_repr n = d :: ds /\ is_ascii_digit d = true /\ digit_run ds
               /\ digits_value (d :: ds) = n /\ (0 < n -> d <> 48%N).
Proof.
  intros Hn. destruct (nat_repr_spec n Hn) as (d & ds & E & Hds & Hv & Hnz).
  apply digit_run_cons in Hds as [Hd Hds]. by exists d, ds.
Qed.

Lemma two_digits_run n : 0 <= n -> exists e es, two_digits n = e :: es /\ digit_run (e :: es).
Proof.
  intros Hn. unfold two_digits.
  destruct (nat_repr_digits n Hn) as (d & ds & E & Hd & Hds & _).
  rewrite E. destruct (n <? 10).
  - exists 48%N, (d :: ds). split; [done|]. apply digit_run_cons. split; [done|].
    by apply digit_run_cons.
  - exists d, ds. split; [done|]. by apply digit_run_cons.
Qed.

Lemma format_digits_shape s d ds pt :
  is_ascii_digit d = true -> d <> 48%N -> digit_run ds ->
  number_text (sign_text s ++ format_digits (d :: ds) pt).
Proof.
  intros Hd Hne Hds. unfold format_digits.
  destruct ((pt <=? -4) || (16 <? pt)) eqn:Hexp.
  - (* exponent notation *)
    assert (exists fr, frac_part fr /\
              match drop 1 (d :: ds) with [] => [] | fr => 46%N :: fr end = fr)
      as (fr & Hfr & ->).
    { simpl. rewrite drop_0. destruct ds as [|f fs]; eexists; (split; [|done]).
      - constructor.
      - by constructor. }
    assert (exists ex v, exp_part ex v /\ ex <> [] /\
              [101%N] ++ (if pt - 1 <? 0 then 45%N :: two_digits (- (pt - 1))
                          else 43%N :: two_digits (pt - 1)) = ex)
      as (ex & v & Hex & Hnil & ->).
    { destruct (Z.ltb_spec (pt - 1) 0).
      - destruct (two_digits_run (- (pt - 1))) as (e & es & -> & He); [lia|].
        eexists _, _. split; [by apply exp_minus|done].
      - destruct (two_digits_run (pt - 1)) as (e & es & -> & He); [lia|].
        eexists _, _. split; [by apply exp_plus|done]. }
    change (take 1 (d :: ds)) with [d].
    apply (number_parts s [d] fr ex v); try done.
    + by apply int_digits.
    + destruct fr; [by rewrite app_nil_l|done].
  - destruct (Z.leb_spec pt 0) as [Hpt|Hpt].
    + (* 0.000ddd *)
      change (lit "0.") with ([48%N] ++ [46%N]).
      rewrite <- (app_assoc [48%N] [46%N]).
      replace ([46%N] ++ repeat 48%N (Z.to_nat (- pt)) ++ d :: ds)
        with (([46%N] ++ repeat 48%N (Z.to_nat (- pt)) ++ d :: ds) ++ [])
        by apply app_nil_r.
      apply (number_parts s [48%N] _ [] 0).
      * constructor.
      * destruct (Z.to_nat (- pt)) as [|k]; simpl.
        -- apply (frac_digits d ds). by apply digit_run_cons.
        -- apply (frac_digits 48%N (repeat 48%N k ++ d :: ds)).
           apply digit_run_cons. split; [done|]. apply digit_run_app.
           split; [apply digit_run_zeros|by apply digit_run_cons].
      * constructor.
      * done.
    + destruct (Z.leb_spec (Z.of_nat (length (d :: ds))) pt) as [Hlen|Hlen].
      * (* ddd000.0 *)
        change (lit ".0") with ([46%N; 48%N] ++ []).
        rewrite (app_assoc (d :: ds)).
        apply (number_parts s _ [46%N; 48%N] [] 0).
        -- simpl. apply int_digits; try done.
           apply digit_run_app. split; [done|apply digit_run_zeros].
        -- by apply (frac_digits 48%N []).
        -- constructor.
        -- done.
      * (* dd.ddd *)
        simpl length in Hlen.
        destruct (Z.to_nat pt) as [|k] eqn:Hk; [lia|].
        assert (k < length ds)%nat as Hklen by lia.
        destruct (digit_run_take_drop k ds Hds) as [Ht Hdr].
        cbn [take drop].
        destruct (drop k ds) as [|f fs] eqn:Edrop.
        { apply (f_equal length) in Edrop. rewrite length_drop in Edrop.
          simpl in Edrop. lia. }
        replace ((d :: take k ds) ++ 46%N :: f :: fs)
          with ((d :: take k ds) ++ (46%N :: f :: fs) ++ []) by by rewrite app_nil_r.
        apply (number_parts s _ _ [] 0).
        -- by apply int_digits.
        -- by apply frac_digits.
        -- constructor.
        -- done.
Qed.

Lemma strip_zeros_pos fuel : forall c e10, 0 < c -> 0 < (strip_zeros fuel c e10).1.
Proof.
  induction fuel as [|fuel IH]; intros c e10 Hc; simpl; [done|].
  destruct (Z.eqb_spec (c mod 10) 0) as [Hm|Hm]; simpl; [|done].
  destruct (Z.ltb_spec 0 c); simpl; [|done].
  apply IH. pose proof (Z.div_mod c 10 ltac:(lia)).
  apply Z.div_str_pos. lia.
Qed.

Lemma decimal_text_shape s c e10 : 0 < c -> number_text (decimal_text s c e10).
Proof.
  intros Hc. unfold decimal_text.
  pose proof (strip_zeros_pos 20 c e10 Hc) as Hpos.
  destruct (strip_zeros 20 c e10) as [c' e']. simpl in Hpos.
  destruct (nat_repr_digits c') as (d & ds & -> & Hd & Hds & _ & Hnz); [lia|].
  change (if s then [45%N] else []) with (sign_text s).
  apply format_digits_shape; auto.
Qed.

Lemma exact_text_shape s m e : number_text (exact_text s m e).
Proof.
  unfold exact_text. change (if s then [45%N] else []) with (sign_text s).
  destruct (Z.leb_spec 0 e) as [He|He].
  - destruct (nat_repr_digits (Z.pos m * 2 ^ e)) as (d & ds & -> & Hd & Hds & _ & Hnz).
    { pose proof (Z.pow_pos_nonneg 2 e). nia. }
    replace ((d :: ds) ++ lit "e+00") with ((d :: ds) ++ [] ++ lit "e+00") by done.
    apply (number_parts s _ [] _ (digits_value [48%N; 48%N])); try done.
    + apply int_digits; try done. apply Hnz.
      pose proof (Z.pow_pos_nonneg 2 e). nia.
    + constructor.
    + by apply exp_plus.
  - destruct (nat_repr_digits (Z.pos m * 5 ^ (- e))) as (d & ds & -> & Hd & Hds & _ & Hnz).
    { pose proof (Z.pow_pos_nonneg 5 (- e)). nia. }
    destruct (nat_repr_digits (- e)) as (k & ks & -> & Hk & Hks & _ & _); [lia|].
    replace ((d :: ds) ++ lit "e-" ++ k :: ks)
      with ((d :: ds) ++ [] ++ (101%N :: 45%N :: k :: ks)) by done.
    apply (number_parts s _ [] _ (- digits_value (k :: ks))); try done.
    + apply int_digits; try done. apply Hnz.
      pose proof (Z.pow_pos_nonneg 5 (- e)). nia.
    + constructor.
    + apply exp_minus. by apply digit_run_cons.
Qed.

Lemma digit_run_number_chars ds : digit_run ds -> forallb is_number_char ds = true.
Proof.
  unfold digit_run. induction ds as [|d ds IH]; simpl; [done|].
  intros [Hd H]%andb_true_iff. rewrite IH by done.
  unfold is_number_char. by rewrite Hd.
Qed.

Lemma int_part_digits ip : int_part ip -> digit_run ip /\ ip <> [].
Proof.
  intros [|d ds Hd Hne Hds]; [done|]. split; [|done]. by apply digit_run_cons.
Qed.

Lemma number_text_chars t : number_text t -> forallb is_number_char t = true.
Proof.
  intros [s ip fr ex v Hip Hfr Hex _]. rewrite !forallb_app.
  apply int_part_digits in Hip as [Hip _].
  repeat (apply andb_true_iff; split).
  - by destruct s.
  - by apply digit_run_number_chars.
  - destruct Hfr as [|f fs Hf]; [done|]. simpl.
    apply digit_run_number_chars in Hf. simpl in Hf. by rewrite Hf.
  - destruct Hex as [|e es He|e es He]; [done| |]; simpl;
      apply digit_run_number_chars in He; simpl in He; by rewrite He.
Qed.

Lemma is_number_char_cases c :
  is_number_char c = true ->
  (c < 127)%N /\ c <> 95%N /\ is_c_space c = false /\ is_surrogate c = false
  /\ to_lower c = c /\ c <> 105%N /\ c <> 110%N.
Proof.
  unfold is_number_char, is_ascii_digit, is_c_space, is_surrogate, to_lower.
  rewrite !orb_true_iff, andb_true_iff, !N.leb_le, !N.eqb_eq.
  intros H.
  assert ((48 <= c <= 57)%N \/ c = 45%N \/ c = 43%N \/ c = 46%N \/ c = 101%N) as Hc by lia.
  clear H.
  assert ((c < 127)%N /\ c <> 95%N /\ c <> 105%N /\ c <> 110%N
          /\ ~ (9 <= c <= 13)%N /\ c <> 32%N /\ ~ (55296 <= c)%N /\ ~ (65 <= c <= 90)%N)
    as (H1 & H2 & H3 & H4 & H5 & H6 & H7 & H8) by lia.
  repeat split; try done.
  - apply orb_false_iff. split; [|by apply N.eqb_neq].
    apply andb_false_iff.
    destruct (N.leb_spec 9 c); [right; apply N.leb_gt; lia|by left].
  - apply andb_false_iff. left. apply N.leb_gt. lia.
  - destruct ((65 <=? c)%N && (c <=? 90)%N) eqn:E; [|done].
    apply andb_true_iff in E as [E1%N.leb_le E2%N.leb_le]. lia.
Qed.

Lemma to_ascii_number_chars t : forallb is_number_char t = true -> to_ascii t = t.
Proof.
  induction t as [|c t IH]; simpl; [done|].
  intros [Hc Ht]%andb_true_iff.
  destruct (is_number_char_cases c Hc) as (H & _).
  rewrite (proj2 (N.ltb_lt c 127)) by done. by rewrite IH.
Qed.

Lemma drop_underscores_number_chars t : forall prev,
  prev <> 95%N -> forallb is_number_char t = true ->
  drop_underscores prev t = Some t.
Proof.
  induction t as [|c t IH]; intros prev Hprev; simpl.
  - intros _. by rewrite (proj2 (N.eqb_neq prev 95)).
  - intros [Hc Ht]%andb_true_iff.
    destruct (is_number_char_cases c Hc) as (_ & H & _).
    rewrite (proj2 (N.eqb_neq c 95)), (proj2 (N.eqb_neq prev 95)) by done.
    simpl. by rewrite IH.
Qed.

Lemma c_lstrip_number_chars t :
  forallb is_number_char t = true -> c_lstrip t = t.
Proof.
  destruct t as [|c t]; simpl; [done|].
  intros [Hc _]%andb_true_iff.
  destruct (is_number_char_cases c Hc) as (_ & _ & -> & _). done.
Qed.

Lemma c_strip_number_chars t : forallb is_number_char t = true -> c_strip t = t.
Proof.
  intros Ht. unfold c_strip. rewrite (c_lstrip_number_chars t) by done.
  rewrite c_lstrip_number_chars by by rewrite forallb_rev.
  apply rev_involutive.
Qed.

(** ** [float] reads back what [repr] wrote *)

Lemma take_sign_text s ip rest :
  int_part ip -> take_sign (sign_text s ++ ip ++ rest) = (s, ip ++ rest).
Proof.
  intros Hip. destruct (int_part_cons ip Hip) as (d & ds & -> & Hd & _).
  unfold take_sign. destruct s; cbn [sign_text app].
  - by rewrite after_eq.
  - by rewrite !after_digit.
Qed.

Lemma take_exponent_exp ex v : exp_part ex v -> take_exponent ex = (v, []).
Proof.
  intros [|e es He|e es He]; [done| |]; unfold take_exponent;
    change ((101 =? 101)%N || (101 =? 69)%N) with true; cbv iota;
    unfold take_sign.
  - rewrite (after_ne 45 43) by done. rewrite after_eq.
    rewrite <- (app_nil_r (e :: es)) at 1. by rewrite span_digits_app.
  - rewrite after_eq.
    rewrite <- (app_nil_r (e :: es)) at 1. by rewrite span_digits_app.
Qed.

Lemma int_exp_number_chars s ip ex v :
  int_part ip -> exp_part ex v ->
  forallb is_number_char (sign_text s ++ ip ++ ex) = true.
Proof.
  intros Hip Hex. rewrite !forallb_app.
  apply int_part_digits in Hip as [Hip _].
  repeat (apply andb_true_iff; split).
  - by destruct s.
  - by apply digit_run_number_chars.
  - destruct Hex as [|e es He|e es He]; [done| |]; simpl;
      apply digit_run_number_chars in He; simpl in He; by rewrite He.
Qed.

Lemma of_str_int_exp s ip ex v :
  int_part ip -> exp_part ex v ->
  Float.of_str (sign_text s ++ ip ++ ex) = Ok (of_decimal s (digits_value ip) v).
Proof.
  intros Hip Hex. pose proof (int_exp_number_chars s ip ex v Hip Hex) as Hch.
  unfold Float.of_str.
  rewrite to_ascii_number_chars, c_strip_number_chars by done.
  rewrite drop_underscores_number_chars by done.
  assert (parse_inf_or_nan (sign_text s ++ ip ++ ex) = None) as ->.
  { unfold parse_inf_or_nan. rewrite take_sign_text by done.
    destruct (int_part_cons ip Hip) as (d & ds & -> & Hd & _).
    assert (is_number_char d = true) as Hn by (unfold is_number_char; by rewrite Hd).
    destruct (is_number_char_cases d Hn) as (_ & _ & _ & _ & Hl & Hi & Hna).
    cbn [app List.map lit list_ascii_of_string startswith]. rewrite Hl.
    change (N_of_ascii "i") with 105%N. change (N_of_ascii "n") with 110%N.
    rewrite (proj2 (N.eqb_neq 105 d)), (proj2 (N.eqb_neq 110 d)) by done.
    done. }
  unfold strtod. rewrite take_sign_text by done.
  rewrite span_digits_app.
  - rewrite <- (app_nil_r ex) at 1.
    rewrite (exp_rest_no_point ex v []) by done.
    rewrite (take_exponent_exp ex v) by done.
    rewrite app_nil_r, Z.sub_0_r.
    by destruct (int_part_cons ip Hip) as (d & ds & -> & _).
  - by apply int_part_digits.
  - rewrite <- (app_nil_r ex).
    apply (frac_exp_rest_no_digit [] ex v []); [constructor|done|done].
Qed.

Lemma of_str_exact_text s m e :
  bounded prec emax m e = true ->
  Float.of_str (exact_text s m e) = Ok (S754_finite s m e).
Proof.
  intros Hb. unfold exact_text.
  change (if s then [45%N] else []) with (sign_text s).
  destruct (Z.leb_spec 0 e) as [He|He].
  - destruct (nat_repr_digits (Z.pos m * 2 ^ e)) as (d & ds & E & Hd & Hds & Hv & Hnz).
    { pose proof (Z.pow_pos_nonneg 2 e). nia. }
    rewrite E.
    rewrite (of_str_int_exp s (d :: ds) (lit "e+00") (digits_value [48%N; 48%N])).
    + rewrite Hv. f_equal. unfold of_decimal.
      change (0 <=? digits_value [48%N; 48%N]) with true. cbv iota.
      apply round_ratio_exact; [done|done|].
      unfold is_ratio. rewrite (proj2 (Z.leb_le 0 e)) by done.
      change (digits_value [48%N; 48%N]) with 0. lia.
    + apply int_digits; try done. apply Hnz.
      pose proof (Z.pow_pos_nonneg 2 e). nia.
    + by apply exp_plus.
  - destruct (nat_repr_digits (Z.pos m * 5 ^ (- e))) as (d & ds & E & Hd & Hds & Hv & Hnz).
    { pose proof (Z.pow_pos_nonneg 5 (- e)). nia. }
    destruct (nat_repr_digits (- e)) as (k & ks & Ek & Hk & Hks & Hvk & _); [lia|].
    rewrite E, Ek.
    rewrite (of_str_int_exp s (d :: ds) (lit "e-" ++ k :: ks) (- digits_value (k :: ks))).
    + rewrite Hv, Hvk, Z.opp_involutive. f_equal. unfold of_decimal.
      rewrite (proj2 (Z.leb_gt 0 e)) by done.
      apply round_ratio_exact; [done|apply Z.pow_pos_nonneg; lia|].
      unfold is_ratio. rewrite (proj2 (Z.leb_gt 0 e)) by done.
      replace 10 with (5 * 2) by done. rewrite Z.pow_mul_l. ring.
    + apply int_digits; try done. apply Hnz.
      pose proof (Z.pow_pos_nonneg 5 (- e)). nia.
    + apply exp_minus. by apply digit_run_cons.
Qed.

Lemma float_eqb_eq x y : float_eqb x y = true -> x = y.
Proof.
  destruct x as [a|a| |a m e], y as [b|b| |b m' e']; simpl; try done.
  - by intros ->%eqb_prop.
  - by intros ->%eqb_prop.
  - intros [[->%eqb_prop ->%Pos.eqb_eq]%andb_true_iff ->%Z.eqb_eq]%andb_true_iff.
    done.
Qed.

Lemma reads_back_spec x t : reads_back x t = true -> Float.of_str t = Ok x.
Proof.
  unfold reads_back. destruct (Float.of_str t) as [y|]; [|done].
  by intros ->%float_eqb_eq.
Qed.

Lemma try_digits_spec x s n d pt nd t :
  try_digits x s n d pt nd = Some t ->
  Float.of_str t = Ok x /\ number_text t.
Proof.
  unfold try_digits. cbv zeta.
  set (e10 := pt - nd).
  set (lo := (if 0 <=? e10 then n else n * 10 ^ (- e10))
             / (if 0 <=? e10 then d * 10 ^ e10 else d)).
  destruct (match 2 * _ ?= _ with Lt => true | Eq => Z.even lo | Gt => false end).
  - destruct (0 <? lo) eqn:Hlo; simpl.
    + destruct (reads_back x (decimal_text s lo e10)) eqn:Hr.
      * intros [= <-]. split; [by apply reads_back_spec|].
        apply decimal_text_shape. by apply Z.ltb_lt.
      * destruct (_ =? 0); [done|].
        destruct (0 <? lo + 1) eqn:Hhi; simpl; [|done].
        destruct (reads_back x (decimal_text s (lo + 1) e10)) eqn:Hr'; [|done].
        intros [= <-]. split; [by apply reads_back_spec|].
        apply decimal_text_shape. by apply Z.ltb_lt.
    + destruct (_ =? 0); [done|].
      destruct (0 <? lo + 1) eqn:Hhi; simpl; [|done].
      destruct (reads_back x (decimal_text s (lo + 1) e10)) eqn:Hr'; [|done].
      intros [= <-]. split; [by apply reads_back_spec|].
      apply decimal_text_shape. by apply Z.ltb_lt.
  - destruct (0 <? lo + 1) eqn:Hhi; simpl.
    + destruct (reads_back x (decimal_text s (lo + 1) e10)) eqn:Hr.
      * intros [= <-]. split; [by apply reads_back_spec|].
        apply decimal_text_shape. by apply Z.ltb_lt.
      * destruct (_ =? 0); [done|].
        destruct (0 <? lo) eqn:Hlo; simpl; [|done].
        destruct (reads_back x (decimal_text s lo e10)) eqn:Hr'; [|done].
        intros [= <-]. split; [by apply reads_back_spec|].
        apply decimal_text_shape. by apply Z.ltb_lt.
    + destruct (_ =? 0); [done|].
      destruct (0 <? lo) eqn:Hlo; simpl; [|done].
      destruct (reads_back x (decimal_text s lo e10)) eqn:Hr'; [|done].
      intros [= <-]. split; [by apply reads_back_spec|].
      apply decimal_text_shape. by apply Z.ltb_lt.
Qed.

Lemma shortest_spec fuel x s n d pt : forall nd t,
  shortest fuel x s n d pt nd = Some t ->
  Float.of_str t = Ok x /\ number_text t.
Proof.
  induction fuel as [|fuel IH]; intros nd t; simpl; [done|].
  destruct (try_digits x s n d pt nd) as [t'|] eqn:E.
  - intros [= <-]. by eapply try_digits_spec.
  - apply IH.
Qed.

Lemma float_repr_spec x :
  valid_binary prec emax x = true -> is_finite x = true ->
  Float.of_str (float_repr x) = Ok x /\ number_text (float_repr x).
Proof.
  intros Hv Hf. destruct x as [s|s| |s m e]; try done.
  - destruct s; (split; [by vm_compute|]).
    + apply (number_parts true [48%N] [46%N; 48%N] [] 0); try constructor; done.
    + apply (number_parts false [48%N] [46%N; 48%N] [] 0); try constructor; done.
  - unfold float_repr.
    destruct (shortest 17 _ _ _ _ _ _) as [t|] eqn:E.
    + by eapply shortest_spec.
    + split; [by apply of_str_exact_text|apply exact_text_shape].
Qed.

(** ** Reading back strings *)

Lemma hex_value_digit d : (d < 16)%N -> hex_value (hex_digit d) = Some d.
Proof.
  intros Hd. destruct d as [|p]; [done|].
  do 4 (try destruct p as [p|p|]); try lia; reflexivity.
Qed.

Lemma decode_uXXXX_control c tail :
  (c < 32)%N ->
  decode_uXXXX ([48%N; 48%N; hex_digit (c / 16); hex_digit (c mod 16)] ++ tail)
  = Some (c, tail).
Proof.
  intros Hc. cbn [app decode_uXXXX].
  change (hex_value 48) with (Some 0%N). cbv iota.
  rewrite !hex_value_digit.
  - f_equal. f_equal. pose proof (N.div_mod c 16). lia.
  - apply N.mod_lt. lia.
  - apply N.Div0.div_lt_upper_bound. lia.
Qed.

Lemma escape_char_length c : (1 <= length (escape_char c))%nat.
Proof.
  unfold escape_char.
  repeat (match goal with |- context [if ?b then _ else _] => destruct b end);
    simpl; lia.
Qed.

Lemma escape_length s : (length s <= length (flat_map escape_char s))%nat.
Proof.
  induction s as [|c s IH]; simpl; [done|].
  rewrite length_app. pose proof (escape_char_length c). lia.
Qed.

(** One character of the text, escaped, followed by anything. *)
Lemma scanstring_escape_char fuel c tail :
  scanstring (S fuel) (escape_char c ++ tail)
  = match scanstring fuel tail with
    | Some (t, rest) => Some (c :: t, rest)
    | None => None
    end.
Proof.
  unfold escape_char.
  destruct (N.eqb_spec c 34) as [->|H34]; [reflexivity|].
  destruct (N.eqb_spec c 92) as [->|H92]; [reflexivity|].
  destruct (N.eqb_spec c 10) as [->|H10]; [reflexivity|].
  destruct (N.eqb_spec c 13) as [->|H13]; [reflexivity|].
  destruct (N.eqb_spec c 9) as [->|H9]; [reflexivity|].
  destruct (N.eqb_spec c 12) as [->|H12]; [reflexivity|].
  destruct (N.eqb_spec c 8) as [->|H8]; [reflexivity|].
  destruct (N.ltb_spec c 32) as [Hlt|Hge].
  - change (lit "\u00" ++ [hex_digit (c / 16); hex_digit (c mod 16)])
      with ([92%N; 117%N] ++ [48%N; 48%N; hex_digit (c / 16); hex_digit (c mod 16)]).
    rewrite <- app_assoc. cbn [app scanstring].
    change (92 =? 34)%N with false. change (92 =? 92)%N with true.
    change (117 =? 117)%N with true. cbv iota.
    change (48%N :: 48%N :: hex_digit (c / 16) :: hex_digit (c mod 16) :: tail)
      with ([48%N; 48%N; hex_digit (c / 16); hex_digit (c mod 16)] ++ tail).
    rewrite decode_uXXXX_control by done.
    rewrite (proj2 (N.leb_gt 55296 c)) by lia. simpl andb. cbv iota.
    done.
  - cbn [app scanstring].
    rewrite (proj2 (N.eqb_neq c 34)), (proj2 (N.eqb_neq c 92)) by done.
    rewrite (proj2 (N.ltb_ge c 32)) by done. done.
Qed.

Lemma scanstring_escape s : forall fuel rest,
  (length s < fuel)%nat ->
  scanstring fuel (flat_map escape_char s ++ 34%N :: rest) = Some (s, rest).
Proof.
  induction s as [|c s IH]; intros fuel rest Hf.
  - destruct fuel; [simpl in Hf; lia|]. reflexivity.
  - destruct fuel as [|fuel]; [simpl in Hf; lia|].
    cbn [flat_map]. rewrite <- app_assoc, scanstring_escape_char.
    rewrite IH by (simpl in Hf; lia). done.
Qed.

Lemma scan_once_str fuel s rest :
  scan_once (S fuel) (encode_str s ++ rest) = Some (PStr s, rest).
Proof.
  unfold encode_str.
  change ((34%N :: flat_map escape_char s ++ [34%N]) ++ rest)
    with (34%N :: (flat_map escape_char s ++ [34%N]) ++ rest).
  rewrite <- app_assoc. cbn [app scan_once].
  change (34 =? 34)%N with true. cbv iota.
  rewrite scanstring_escape; [done|].
  rewrite length_app. pose proof (escape_length s). lia.
Qed.

(** ** Reading back numbers, records and lists *)

Lemma scan_number_float x rest :
  valid_binary prec emax x = true -> is_finite x = true -> ends_number rest ->
  scan_number (floatstr x ++ rest) = Some (PFloat x, rest).
Proof.
  intros Hv Hf Hrest. destruct (float_repr_spec x Hv Hf) as [Hread Hshape].
  assert (floatstr x = float_repr x) as -> by by destruct x as [| | |].
  destruct Hshape as [s ip fr ex v Hip Hfr Hex Hne].
  unfold scan_number.
  rewrite <- !app_assoc.
  rewrite (match_number_parts s ip fr ex v rest) by done.
  rewrite <- app_assoc, Hread.
  destruct fr, ex; done.
Qed.

Lemma number_text_head t :
  number_text t -> exists c t', t = c :: t' /\ is_number_char c = true
                                /\ (c = 45%N \/ is_ascii_digit c = true).
Proof.
  intros [s ip fr ex v Hip _ _ _].
  destruct (int_part_cons ip Hip) as (d & ds & -> & Hd & _).
  destruct s; simpl.
  - eexists _, _. split; [done|]. split; [done|by left].
  - eexists _, _. split; [done|]. unfold is_number_char. rewrite Hd.
    split; [done|by right].
Qed.

Lemma scan_once_float fuel x rest :
  valid_binary prec emax x = true -> is_finite x = true -> ends_number rest ->
  scan_once (S fuel) (floatstr x ++ rest) = Some (PFloat x, rest).
Proof.
  intros Hv Hf Hrest.
  pose proof (scan_number_float x rest Hv Hf Hrest) as Hscan.
  destruct (float_repr_spec x Hv Hf) as [_ Hshape].
  assert (floatstr x = float_repr x) as E by by destruct x as [| | |].
  rewrite E in *.
  destruct (number_text_head _ Hshape) as (c & t' & Et & Hc & Hhead).
  rewrite Et in *. cbn [app scan_once].
  assert ((c =? 34)%N = false /\ (c =? 123)%N = false /\ (c =? 91)%N = false
          /\ (c =? 110)%N = false /\ (c =? 116)%N = false /\ (c =? 102)%N = false)
    as (-> & -> & -> & -> & -> & ->).
  { rewrite !N.eqb_neq. destruct Hhead as [->|Hd]; [done|].
    unfold is_ascii_digit in Hd.
    apply andb_true_iff in Hd as [H1%N.leb_le H2%N.leb_le]. lia. }
  cbn [app] in Hscan. by rewrite Hscan.
Qed.

Lemma skip_ws_indent level s : skip_ws (newline_indent level ++ s) = skip_ws s.
Proof.
  unfold newline_indent. cbn [app skip_ws].
  change (is_json_space 10) with true. cbv iota.
  induction (2 * level)%nat as [|k IH]; [done|]. simpl. apply IH.
Qed.

Lemma skip_ws_stop c s : is_json_space c = false -> skip_ws (c :: s) = c :: s.
Proof. intros H. simpl. by rewrite H. Qed.

(** One [key: value] item of an object, the opening quote of the key
    already read. *)
Lemma scan_object_item scan n key v vtext s_after acc :
  scan (vtext ++ s_after) = Some (v, s_after) ->
  skip_ws (vtext ++ s_after) = vtext ++ s_after ->
  scan_object scan (S n)
    (flat_map escape_char key ++ 34%N :: lit ": " ++ vtext ++ s_after) acc
  = match after 125 (skip_ws s_after), after 44 (skip_ws s_after) with
    | Some s4, _ => Some (PDict (dict_set acc key v), s4)
    | None, Some s4 =>
        match after 34 (skip_ws s4) with
        | Some s5 => scan_object scan n s5 (dict_set acc key v)
        | None => None
        end
    | None, None => None
    end.
Proof.
  intros Hscan Hskip. cbn [scan_object].
  rewrite scanstring_escape.
  - change (lit ": " ++ vtext ++ s_after) with (58%N :: 32%N :: vtext ++ s_after).
    rewrite skip_ws_stop by done. rewrite after_eq.
    cbn [skip_ws]. change (is_json_space 32) with true. cbv iota.
    rewrite Hskip, Hscan. done.
  - rewrite length_app. pose proof (escape_length key). lia.
Qed.

Lemma encode_entry level name rating link :
  encode level (professor_entry name rating link)
  = lit "{" ++ newline_indent (S level)
      ++ (encode_str (lit "name") ++ lit ": " ++ encode_str name)
      ++ (44%N :: newline_indent (S level))
      ++ (encode_str (lit "rating") ++ lit ": " ++ floatstr rating)
      ++ (44%N :: newline_indent (S level))
      ++ (encode_str (lit "link") ++ lit ": " ++ encode_str link)
      ++ newline_indent level ++ lit "}".
Proof.
  unfold professor_entry. cbn [encode List.map join fst snd].
  by rewrite <- !app_assoc.
Qed.

Lemma encode_str_skip_ws s rest :
  skip_ws (encode_str s ++ rest) = encode_str s ++ rest.
Proof. reflexivity. Qed.

Lemma floatstr_skip_ws x rest :
  valid_binary prec emax x = true -> is_finite x = true ->
  skip_ws (floatstr x ++ rest) = floatstr x ++ rest.
Proof.
  intros Hv Hf. destruct (float_repr_spec x Hv Hf) as [_ Hshape].
  assert (floatstr x = float_repr x) as -> by by destruct x as [| | |].
  destruct (number_text_head _ Hshape) as (c & t' & -> & Hc & Hhead).
  cbn [app]. apply skip_ws_stop.
  destruct Hhead as [->|Hd]; [done|].
  unfold is_ascii_digit in Hd. unfold is_json_space.
  apply andb_true_iff in Hd as [H1%N.leb_le H2%N.leb_le].
  rewrite !orb_false_iff, !N.eqb_neq. lia.
Qed.

Lemma scan_once_brace fuel s' :
  scan_once (S fuel) (123%N :: s')
  = match after 125 (skip_ws s'), after 34 (skip_ws s') with
    | Some rest, _ => Some (PDict [], rest)
    | None, Some s1 => scan_object (scan_once fuel) (S (length s')) s1 []
    | None, None => None
    end.
Proof. reflexivity. Qed.

Lemma scan_once_bracket fuel s' :
  scan_once (S fuel) (91%N :: s')
  = match after 93 (skip_ws s') with
    | Some rest => Some (PList [], rest)
    | None => scan_array (scan_once fuel) (S (length s')) (skip_ws s') []
    end.
Proof. reflexivity. Qed.

Lemma key_text key rest :
  encode_str key ++ rest = 34%N :: flat_map escape_char key ++ 34%N :: rest.
Proof. unfold encode_str. cbn [app]. by rewrite <- app_assoc. Qed.

Lemma ends_number_comma s : ends_number (44%N :: s).
Proof. done. Qed.

Lemma scan_once_entry fuel name rating link rest :
  valid_binary prec emax rating = true -> is_finite rating = true ->
  scan_once (S (S fuel)) (encode 1 (professor_entry name rating link) ++ rest)
  = Some (professor_entry name rating link, rest).
Proof.
  intros Hv Hf. rewrite encode_entry.
  change (lit "{") with [123%N]. change (lit "}") with [125%N].
  rewrite <- !app_assoc. cbn [app].
  rewrite scan_once_brace, skip_ws_indent.
  rewrite (key_text (lit "name")).
  rewrite skip_ws_stop by done.
  rewrite (after_ne 125 34) by done. rewrite after_eq.
  rewrite length_app. change (length (newline_indent 2)) with 5%nat.
  cbn [Nat.add].
  (* name *)
  rewrite (scan_object_item _ _ (lit "name") (PStr name) (encode_str name)).
  2:{ apply scan_once_str. }
  2:{ apply encode_str_skip_ws. }
  rewrite skip_ws_stop by done.
  rewrite (after_ne 125 44) by done. rewrite after_eq.
  rewrite skip_ws_indent, (key_text (lit "rating")).
  rewrite skip_ws_stop by done. rewrite after_eq.
  (* rating *)
  rewrite (scan_object_item _ _ (lit "rating") (PFloat rating) (floatstr rating)).
  2:{ apply scan_once_float; [done|done|apply ends_number_comma]. }
  2:{ by apply floatstr_skip_ws. }
  rewrite skip_ws_stop by done.
  rewrite (after_ne 125 44) by done. rewrite after_eq.
  rewrite skip_ws_indent, (key_text (lit "link")).
  rewrite skip_ws_stop by done. rewrite after_eq.
  (* link *)
  rewrite (scan_object_item _ _ (lit "link") (PStr link) (encode_str link)).
  2:{ apply scan_once_str. }
  2:{ apply encode_str_skip_ws. }
  rewrite skip_ws_indent, skip_ws_stop by done.
  rewrite after_eq. reflexivity.
Qed.

Lemma join_array_tail x xs close :
  join (44%N :: newline_indent 1) (x :: xs) ++ close = x ++ array_tail xs close.
Proof.
  revert x. induction xs as [|y xs IH]; intros x; [done|].
  change (join (44%N :: newline_indent 1) (x :: y :: xs))
    with (x ++ (44%N :: newline_indent 1) ++ join (44%N :: newline_indent 1) (y :: xs)).
  cbn [array_tail]. rewrite <- !app_assoc. f_equal. f_equal. apply IH.
Qed.

Lemma array_tail_length xs close : (length xs <= length (array_tail xs close))%nat.
Proof.
  induction xs as [|x xs IH]; simpl; [lia|]. rewrite length_app. lia.
Qed.

Lemma is_entry_scan fuel e rest :
  is_entry e -> scan_once (S (S fuel)) (encode 1 e ++ rest) = Some (e, rest).
Proof. intros (name & rating & link & -> & Hv & Hf). by apply scan_once_entry. Qed.

Lemma is_entry_skip_ws e rest :
  is_entry e -> skip_ws (encode 1 e ++ rest) = encode 1 e ++ rest.
Proof. intros (name & rating & link & -> & _). reflexivity. Qed.

Lemma is_entry_head e rest :
  is_entry e -> after 93 (encode 1 e ++ rest) = None.
Proof. intros (name & rating & link & -> & _). reflexivity. Qed.

Lemma scan_array_entries fuel es : forall e acc n rest,
  Forall is_entry (e :: es) -> (length es < n)%nat ->
  scan_array (scan_once (S (S fuel))) n
    (encode 1 e ++ array_tail (List.map (encode 1) es) (newline_indent 0 ++ 93%N :: rest))
    acc
  = Some (PList (acc ++ e :: es), rest).
Proof.
  induction es as [|e2 es IH]; intros e acc n rest Hes Hn;
    (destruct n as [|n]; [simpl in Hn; lia|]);
    inversion Hes as [|? ? He Hes']; subst.
  - cbn [List.map array_tail scan_array].
    rewrite is_entry_scan by done.
    rewrite skip_ws_indent, skip_ws_stop by done.
    by rewrite after_eq.
  - cbn [List.map array_tail scan_array].
    rewrite is_entry_scan by done.
    cbn [app]. rewrite skip_ws_stop by done.
    rewrite (after_ne 93 44) by done. rewrite after_eq.
    rewrite skip_ws_indent.
    inversion Hes' as [|? ? He2 _]; subst.
    rewrite is_entry_skip_ws by done.
    rewrite IH by (done || (simpl in Hn; lia)).
    by rewrite <- app_assoc.
Qed.

Lemma loads_dumps_entries es :
  es <> [] -> Forall is_entry es -> loads (dumps (PList es)) = Ok (PList es).
Proof.
  intros Hne Hes. destruct es as [|e es]; [done|].
  unfold dumps. cbn [encode].
  change (lit "[") with [91%N]. change (lit "]") with [93%N].
  cbn [List.map]. rewrite (join_array_tail (encode 1 e)).
  unfold loads. cbn [app]. rewrite (after_ne 65279 91) by done.
  rewrite skip_ws_stop by done.
  cbn [length]. rewrite scan_once_bracket, skip_ws_indent.
  inversion Hes as [|? ? He _]; subst.
  rewrite is_entry_skip_ws, is_entry_head by done.
  rewrite length_app. change (length (newline_indent 1)) with 3%nat.
  cbn [Nat.add].
  change (newline_indent 0 ++ [93%N]) with (newline_indent 0 ++ 93%N :: []).
  rewrite scan_array_entries; [done|done|].
  rewrite length_app. pose proof (array_tail_length (List.map (encode 1) es)
                                    (newline_indent 0 ++ [93%N])).
  rewrite length_map in H. lia.
Qed.

(** ** What the record schema accepts *)

Lemma valid_entry n r l :
  valid PROFESSOR_SCHEMA (professor_entry n r l) = name_ok n && rating_ok r && link_ok l.
Proof.
  unfold PROFESSOR_SCHEMA, professor_entry.
  cbn [valid].
  change (dict_get _ (lit "name")) with (Some (PStr n)).
  change (dict_get _ (lit "rating")) with (Some (PFloat r)).
  change (dict_get _ (lit "link")) with (Some (PStr l)).
  cbv iota. cbn [is_type num_lt forallb].
  change (dict_get _ (lit "name")) with (Some (PStr n)).
  change (dict_get _ (lit "rating")) with (Some (PFloat r)).
  change (dict_get _ (lit "link")) with (Some (PStr l)).
  cbv iota.
  rewrite !andb_true_r, !andb_true_l.
  unfold name_ok, rating_ok, link_ok, matched. by rewrite !andb_assoc.
Qed.

Lemma search_from_bol r s : forall adv p,
  (0 < p)%nat -> search_from (RCat RBol r) adv p s = None.
Proof.
  induction s as [|c s IH]; intros adv p Hp; cbn [search_from];
    rewrite rmatch_cat; cbn [rmatch];
    rewrite (proj2 (Nat.eqb_neq p 0)) by lia; [done|].
  apply IH. lia.
Qed.

Lemma re_search_bol r s :
  matched (re_search (RCat RBol r) s) = matched (re_match (RCat RBol r) s).
Proof.
  unfold re_search, re_match.
  destruct s as [|c s]; cbn [search_from].
  - change (fun p' s' => if false && (p' =? 0)%nat then None else Some (p', s'))
      with (fun (p' : nat) (s' : str) => Some (p', s')).
    by destruct (rmatch _ _ _ _).
  - change (fun p' s' => if false && (p' =? 0)%nat then None else Some (p', s'))
      with (fun (p' : nat) (s' : str) => Some (p', s')).
    destruct (rmatch _ _ _ _); [done|].
    by rewrite search_from_bol by lia.
Qed.

Lemma link_ok_spec l :
  link_ok l = true <->
  exists token, token <> [] /\ forallb is_token_char token = true
                /\ (l = professor_prefix ++ token
                    \/ l = professor_prefix ++ token ++ [10%N]).
Proof.
  rewrite <- re_match_link_pattern. unfold link_ok, link_pattern.
  change (RSeq [RBol; RLit "https://polyratings.dev/professor/";
                RPlus (RSet false token_items); REol])
    with (RCat RBol (RSeq [RLit "https://polyratings.dev/professor/";
                           RPlus (RSet false token_items); REol])).
  rewrite re_search_bol. destruct (re_match _ l); simpl; split; try done;
    by intros [? ?].
Qed.

(** The schema and [validate_professor_link] accept the same links. *)
Lemma link_ok_validate l : link_ok l = true <-> validate_professor_link l = Some l.
Proof. by rewrite validate_professor_link_spec, link_ok_spec. Qed.

Lemma greedy_eol_chars (P : char -> bool) s : forall p,
  is_Some (greedy P p s at_eol) -> Forall (fun c => P c = true \/ c = 10%N) s.
Proof.
  induction s as [|c s IH]; intros p; [constructor|].
  cbn [greedy]. destruct (P c) eqn:Hc.
  - destruct (greedy P (S p) s at_eol) eqn:E.
    + intros _. constructor; [by left|]. apply (IH (S p)). rewrite E. by eexists.
    + intros [?|[= -> ->]]%at_eol_spec; [done|]. constructor; [by right|constructor].
  - intros [?|[= -> ->]]%at_eol_spec; [done|]. constructor; [by right|constructor].
Qed.

Lemma name_ok_chars n :
  name_ok n = true ->
  Forall (fun c => set_matches false name_items c = true \/ c = 10%N) n.
Proof.
  unfold name_ok. intros [_ [_ H]%andb_true_iff]%andb_true_iff.
  revert H. unfold name_pattern.
  change (RSeq [RBol; RPlus (RSet false name_items); REol])
    with (RCat RBol (RCat (RPlus (RSet false name_items)) (RCat REol REps))).
  rewrite re_search_bol. unfold re_match.
  rewrite rmatch_cat, rmatch_bol, rmatch_cat, rmatch_plus_class.
  change (fun p' s' => rmatch (RCat REol REps) p' s' (fun p'0 s'0 => Some (p'0, s'0)))
    with at_eol.
  destruct n as [|c n]; [done|].
  destruct (set_matches false name_items c) eqn:Hc; [|done].
  intros H. constructor; [by left|].
  apply (greedy_eol_chars _ n 1). destruct (greedy _ _ _ _); [by eexists|done].
Qed.

Lemma name_class_low c : set_matches false name_items c = true \/ c = 10%N -> low c = true.
Proof.
  unfold low. intros [H| ->]; [|done]. apply N.ltb_lt.
  unfold set_matches, name_items in H. simpl in H.
  unfold is_space in H.
  rewrite !orb_true_iff, !andb_true_iff, !N.leb_le, !N.eqb_eq in H. lia.
Qed.

Lemma token_char_low c : is_token_char c = true -> low c = true.
Proof.
  unfold low, is_token_char.
  rewrite !orb_true_iff, !andb_true_iff, !N.leb_le, !N.eqb_eq, N.ltb_lt. lia.
Qed.

Lemma name_ok_low n : name_ok n = true -> forallb low n = true.
Proof.
  intros H%name_ok_chars. apply forallb_forall. intros c Hc%list_elem_of_In.
  rewrite Forall_forall in H. by apply name_class_low, H.
Qed.

Lemma link_ok_low l : link_ok l = true -> forallb low l = true.
Proof.
  intros (token & _ & Htok & Hl)%link_ok_spec.
  assert (forallb low token = true) as Hlow.
  { apply forallb_forall. intros c Hc. apply token_char_low.
    rewrite forallb_forall in Htok. by apply Htok. }
  destruct Hl as [->| ->]; rewrite !forallb_app, Hlow; done.
Qed.

Lemma escape_char_low c : low c = true -> forallb low (escape_char c) = true.
Proof.
  intros Hc. unfold escape_char.
  repeat (match goal with |- context [if ?b then _ else _] => destruct b eqn:? end);
    try reflexivity.
  - simpl. rewrite andb_true_r.
    assert (forall d, (d < 16)%N -> low (hex_digit d) = true) as Hhex.
    { intros d Hd. unfold low, hex_digit. apply N.ltb_lt.
      destruct (d <? 10)%N; lia. }
    rewrite !Hhex; [done| |].
    + apply N.mod_lt. lia.
    + apply N.Div0.div_lt_upper_bound. apply N.ltb_lt in Heqb6. lia.
  - simpl. by rewrite Hc.
Qed.

Lemma encode_str_low s : forallb low s = true -> forallb low (encode_str s) = true.
Proof.
  intros Hs. unfold encode_str. cbn [forallb]. rewrite forallb_app.
  change (low 34) with true. cbn [andb forallb]. change (low 34) with true.
  rewrite andb_true_r.
  induction s as [|c s IH]; [done|].
  simpl in Hs. apply andb_true_iff in Hs as [Hc Hs].
  cbn [flat_map]. rewrite forallb_app, escape_char_low, IH; done.
Qed.

Lemma floatstr_low x :
  valid_binary prec emax x = true -> is_finite x = true ->
  forallb low (floatstr x) = true.
Proof.
  intros Hv Hf. destruct (float_repr_spec x Hv Hf) as [_ Hshape].
  assert (floatstr x = float_repr x) as -> by by destruct x as [| | |].
  apply number_text_chars in Hshape.
  apply forallb_forall. intros c Hc. rewrite forallb_forall in Hshape.
  destruct (is_number_char_cases c (Hshape c Hc)) as (H & _).
  unfold low. apply N.ltb_lt. lia.
Qed.

Lemma in_range_finite r : in_range r = true -> is_finite r = true.
Proof.
  unfold in_range, Float.le, SFleb. intros [H1 H2]%andb_true_iff.
  destruct r as [s|[|]| |s m e]; try done.
Qed.

Lemma low_indent level : forallb low (newline_indent level) = true.
Proof.
  unfold newline_indent. simpl. induction (level + (level + 0))%nat; [done|].
  simpl. done.
Qed.

Lemma validated_entry_low level e :
  is_validated_record e -> forallb low (encode level e) = true.
Proof.
  intros (n & r & l & -> & Hv & Hr & Hvalid).
  rewrite valid_entry in Hvalid.
  apply andb_true_iff in Hvalid as [[Hn _]%andb_true_iff Hl].
  rewrite encode_entry. rewrite !forallb_app. cbn [forallb].
  rewrite !low_indent.
  rewrite (encode_str_low n) by by apply name_ok_low.
  rewrite (encode_str_low l) by by apply link_ok_low.
  rewrite floatstr_low by (done || by apply in_range_finite).
  reflexivity.
Qed.

Lemma array_tail_low xs close :
  Forall (fun x => forallb low x = true) xs -> forallb low close = true ->
  forallb low (array_tail xs close) = true.
Proof.
  intros Hxs Hc. induction Hxs as [|x xs Hx _ IH]; [done|].
  cbn [array_tail]. rewrite !forallb_app, Hx, IH. reflexivity.
Qed.

Lemma dumps_low es :
  Forall is_validated_record es -> forallb low (dumps (PList es)) = true.
Proof.
  intros Hes. destruct es as [|e es]; [done|].
  unfold dumps. cbn [encode List.map]. rewrite !forallb_app.
  replace (join (44%N :: newline_indent 1) (encode 1 e :: List.map (encode 1) es))
    with (join (44%N :: newline_indent 1) (encode 1 e :: List.map (encode 1) es) ++ [])
    by apply app_nil_r.
  rewrite join_array_tail, forallb_app.
  inversion Hes as [|? ? He Hes']; subst.
  rewrite validated_entry_low by done.
  rewrite array_tail_low; [done| |done].
  apply List.Forall_forall. intros x (e' & <- & He')%in_map_iff.
  apply validated_entry_low. rewrite List.Forall_forall in Hes'. by apply Hes'.
Qed.

(** ** Saving and loading *)

Lemma validated_is_entry e : is_validated_record e -> is_entry e.
Proof.
  intros (n & r & l & -> & Hv & Hr & _). exists n, r, l.
  split; [done|]. split; [done|by apply in_range_finite].
Qed.

Lemma validated_list_valid es :
  es <> [] -> Forall is_validated_record es ->
  valid PROFESSORS_LIST_SCHEMA (PList es) = true.
Proof.
  intros Hne Hes. rewrite valid_list_schema. apply andb_true_iff. split.
  - apply forallb_forall. intros e He. rewrite List.Forall_forall in Hes.
    by destruct (Hes e He) as (? & ? & ? & _ & _ & _ & ?).
  - by destruct es.
Qed.

Lemma low_no_surrogate text :
  forallb low text = true -> forallb (fun c => negb (is_surrogate c)) text = true.
Proof.
  rewrite !forallb_forall. intros H c Hc. specialize (H c Hc).
  unfold low, is_surrogate in *. apply N.ltb_lt in H.
  rewrite (proj2 (N.leb_gt 55296 c)) by done. done.
Qed.

(** C5. Saving a non-empty sequence of validated records and loading the
    artifact again succeeds and gives back the sequence saved: the same
    records in the same order. *)
Theorem save_then_load_round_trip
    (es : list pyval) (path : str) (fs : filesystem) :
  es <> [] -> Forall is_validated_record es ->
  exists fs',
    save_professors_json NoFault (PList es) path fs = (true, fs')
    /\ fs' !! path = Some (dumps (PList es))
    /\ load_professors_json true path fs' = Some (PList es).
Proof.
  intros Hne Hes. exists (<[path := dumps (PList es)]> fs).
  pose proof (validated_list_valid es Hne Hes) as Hvalid.
  split; [|split].
  - rewrite save_professors_json_spec, Hvalid. unfold write_file.
    by rewrite (low_no_surrogate _ (dumps_low es Hes)).
  - by rewrite lookup_insert_eq.
  - unfold load_professors_json, read_file. rewrite lookup_insert_eq. simpl.
    rewrite loads_dumps_entries; [|done|].
    + by rewrite validate_professors_list_valid, Hvalid.
    + eapply List.Forall_impl; [|exact Hes]. apply validated_is_entry.
Qed.

Lemma save_then_load_round_trip_witness :
  exists fs',
    save_professors_json NoFault (PList [smith]) artifact_path old_fs = (true, fs')
    /\ fs' !! artifact_path = Some (dumps (PList [smith]))
    /\ load_professors_json true artifact_path fs' = Some (PList [smith]).
Proof.
  apply (save_then_load_round_trip [smith] artifact_path old_fs); [done|].
  constructor; [|constructor].
  exists (lit "Smith, John"), f3_5, link_ab12.
  repeat split; by vm_compute.
Defined.

(** ** The driver: from the cards to the artifact *)

Lemma validate_rating_eq rating :
  validate_rating rating =
    match float_of rating with
    | Ok x => if in_range x then Ok (Some (round_ndigits x 2)) else Ok None
    | Raise e => if is_exn ValueError e || is_exn TypeError e then Ok None else Raise e
    end.
Proof.
  unfold validate_rating, try_except, in_range.
  destruct (float_of rating) as [x|e]; simpl; [|done].
  by destruct (_ && _).
Qed.

Lemma matched_validate_link link :
  matched (validate_professor_link link) = true <-> validate_professor_link link = Some link.
Proof.
  unfold validate_professor_link. destruct link as [|c link]; [done|].
  by destruct (re_match _ _).
Qed.

Lemma after_name_step_eq clean_name rating link :
  after_name_step clean_name rating link =
    match validate_rating rating with
    | Raise e => Raise e
    | Ok None => Ok None
    | Ok (Some r) =>
        if matched (validate_professor_link link)
           && valid PROFESSOR_SCHEMA (professor_entry clean_name r link)
        then Ok (Some (professor_entry clean_name r link)) else Ok None
    end.
Proof.
  unfold after_name_step.
  destruct (validate_rating rating) as [[r|]|e]; try reflexivity.
  cbv beta iota delta [mbind result_bind].
  unfold validate_professor_link.
  destruct link as [|c link]; [reflexivity|].
  destruct (re_match link_pattern (c :: link)); [|reflexivity].
  cbn [matched andb].
  unfold professor_entry. rewrite validate_professor_data_valid.
  by destruct (valid PROFESSOR_SCHEMA _).
Qed.

Lemma create_professor_entry_eq name rating link :
  create_professor_entry name rating link =
    match clean_professor_name name with
    | [] => Ok None
    | clean_name => after_name_step clean_name rating link
    end.
Proof.
  unfold create_professor_entry, after_name_step.
  by destruct (clean_professor_name name).
Qed.

Lemma create_professor_entry_inv name rating link e :
  create_professor_entry name rating link = Ok (Some e) ->
  exists r, validate_rating rating = Ok (Some r)
            /\ validate_professor_link link = Some link
            /\ valid PROFESSOR_SCHEMA e = true
            /\ e = professor_entry (clean_professor_name name) r link.
Proof.
  rewrite create_professor_entry_eq.
  assert (after_name_step (clean_professor_name name) rating link = Ok (Some e) ->
          exists r, validate_rating rating = Ok (Some r)
            /\ validate_professor_link link = Some link
            /\ valid PROFESSOR_SCHEMA e = true
            /\ e = professor_entry (clean_professor_name name) r link) as H.
  { rewrite after_name_step_eq.
    destruct (validate_rating rating) as [[r|]|ex]; try done.
    destruct (matched (validate_professor_link link)) eqn:Hl; [|done].
    apply matched_validate_link in Hl.
    destruct (valid _ _) eqn:Hv; [|done]. simpl. intros [= <-]. by exists r. }
  by destruct (clean_professor_name name).
Qed.

(** The rating of a card is a text or is missing: the step does not
    raise. *)
Lemma validate_rating_card t : exists o, validate_rating (rating_arg t) = Ok o.
Proof.
  destruct t as [t|]; rewrite validate_rating_eq; simpl; [|by eexists].
  destruct (Float.of_str t) as [x|e] eqn:Hx.
  - destruct (in_range x); by eexists.
  - apply of_str_raises in Hx as ->. by eexists.
Qed.

Lemma create_professor_entry_card name t link :
  exists o, create_professor_entry name (rating_arg t) link = Ok o.
Proof.
  rewrite create_professor_entry_eq.
  destruct (clean_professor_name name) as [|c n]; [by eexists|].
  rewrite after_name_step_eq. destruct (validate_rating_card t) as [[r|] ->].
  - destruct (_ && _); by eexists.
  - by eexists.
Qed.

Lemma accepted_inv p e :
  accepted p = Some e ->
  record_link e = Some (prof_link p)
  /\ valid PROFESSOR_SCHEMA e = true
  /\ exists d, e = PDict d /\ d <> [].
Proof.
  destruct p as [[name t] link]. unfold accepted. cbn [fst snd].
  destruct (create_professor_entry name (rating_arg t) link) as [[e'|]|] eqn:E;
    try done.
  intros [= <-]. apply create_professor_entry_inv in E as (r & Hr & Hl & Hv & ->).
  split; [reflexivity|]. split; [done|]. by eexists.
Qed.

(** The validation loop keeps the records of the accepted cards, in the
    order of the cards, and raises nothing. *)
Lemma validate_all_spec raw : validate_all raw = Ok (omap accepted raw).
Proof.
  induction raw as [|[[name t] link] raw IH]; [done|].
  cbn [validate_all omap list_omap]. rewrite IH.
  pose proof (accepted_inv (name, t, link)) as Hinv.
  unfold accepted in Hinv |- *. cbn [fst snd] in Hinv |- *.
  destruct (create_professor_entry_card name t link) as [[e|] He];
    rewrite He in Hinv |- *; [|reflexivity].
  destruct (Hinv e eq_refl) as (_ & _ & d & -> & Hd).
  destruct d; [done|reflexivity].
Qed.

Lemma process_spec fault path raw fs :
  process fault path raw fs =
    (Ok (omap accepted (deduplicate_professors raw),
         (save_professors_json fault
            (PList (omap accepted (deduplicate_professors raw))) path fs).1),
     (save_professors_json fault
        (PList (omap accepted (deduplicate_professors raw))) path fs).2).
Proof.
  unfold process. rewrite validate_all_spec. by destruct (save_professors_json _ _ _ _).
Qed.

Lemma elem_of_accepted (l : list professor) (e : pyval) :
  e ∈ omap accepted l <-> exists p, p ∈ l /\ accepted p = Some e.
Proof. apply list_elem_of_omap. Qed.

Lemma accepted_NoDup (l : list professor) :
  NoDup (prof_link <$> l) -> NoDup (record_link <$> omap accepted l).
Proof.
  induction l as [|p l IH]; [constructor|].
  rewrite fmap_cons. intros [Hp Hl]%NoDup_cons. cbn [omap list_omap].
  destruct (accepted p) as [e|] eqn:He; [|by apply IH].
  rewrite fmap_cons. apply NoDup_cons. split; [|by apply IH].
  intros (e' & He' & (p' & Hp' & Ha)%elem_of_accepted)%list_elem_of_fmap.
  apply accepted_inv in He as (Hk & _). apply accepted_inv in Ha as (Hk' & _).
  apply Hp. apply list_elem_of_fmap. exists p'. split; [congruence|done].
Qed.

Lemma first_with_link_dedup k raw p :
  first_with_link k raw = Some p <->
  p ∈ deduplicate_professors raw /\ prof_link p = k.
Proof.
  split.
  - intros Hf. pose proof Hf as Hf'.
    apply find_some in Hf' as [Hin%list_elem_of_In Hk%bool_decide_eq_true].
    split; [|done].
    destruct (dedup_loop_covers raw ∅ p Hin) as [H|H]; [set_solver|].
    apply list_elem_of_fmap in H as (p' & Hk' & Hp').
    pose proof (dedup_loop_first _ _ _ Hp') as Hf'. rewrite <- Hk', Hk in Hf'.
    by replace p with p' by congruence.
  - intros [Hp <-]. by apply (dedup_loop_first raw ∅).
Qed.

(** C3. The records a run hands to the store never hold one link twice, and
    the artifact a successful save leaves is the text of these records. A
    link is among them exactly when the first card that carries it in the
    collected list is accepted by the validator. Every run of the driver that
    comes to its end is such a run. *)
Theorem process_persists_unique_links
    (fault : write_fault) (output_path : str)
    (professors_raw : list professor) (fs : filesystem) :
  (exists professors saved fs',
      process fault output_path professors_raw fs = (Ok (professors, saved), fs')
      /\ NoDup (record_link <$> professors)
      /\ Forall (fun e => is_Some (record_link e)) professors
      /\ (forall k, Some k ∈ record_link <$> professors <->
            exists p, first_with_link k professors_raw = Some p
                      /\ is_Some (accepted p))
      /\ (saved = true ->
          fs' = <[output_path := dumps (PList professors)]> fs))
  /\ (forall W (driver : WebDriver W) fuel w r,
        main driver fuel fault output_path w fs = Some r ->
        exists raw, r = process fault output_path raw fs).
Proof.
  split.
  - rewrite process_spec. eexists _, _, _. split; [reflexivity|].
    split; [|split; [|split]].
    + apply accepted_NoDup, dedup_loop_NoDup.
    + apply List.Forall_forall. intros e (p & _ & He)%list_elem_of_In%elem_of_accepted.
      apply accepted_inv in He as (-> & _). by eexists.
    + intros k. rewrite list_elem_of_fmap. split.
      * intros (e & Hk & (p & Hp & He)%elem_of_accepted).
        exists p. split; [|by rewrite He].
        apply first_with_link_dedup. split; [done|].
        apply accepted_inv in He as (Hk' & _). congruence.
      * intros (p & [Hp Hk]%first_with_link_dedup & [e He]).
        exists e. split.
        -- apply accepted_inv in He as (-> & _). by rewrite Hk.
        -- apply elem_of_accepted. eauto.
    + rewrite save_professors_json_spec.
      destruct (valid _ _); [|done].
      destruct fault; simpl; try done.
      destruct (forallb _ _); simpl; done.
  - intros W driver fuel w r. unfold main.
    destruct (fine_grained_scroll_and_collect _ _ _ _ _ _) as [[[c raw] w']|]; [|done].
    intros [= <-]. by exists raw.
Qed.
